(** * libmavconn TCP links: a model of [tcp.cpp] and its properties

    The development embeds the two classes of [libmavconn/src/tcp.cpp],
    [MAVConnTCPClient] and [MAVConnTCPServer], as state-passing functions
    over records, and proves properties of the outbound queue, of the send
    loop, of [close()] and of the server's registry.

    Threads and the asio reactor appear as explicit events: a call made
    by some thread, a posted handler that the reactor runs, the
    completion of the outstanding [async_send]. *)

From Stdlib Require Import ZArith Lia Strings.Byte.
From stdpp Require Import base decidable option list numbers strings.

Local Open Scope Z_scope.

(** ** Machine integers *)

(** [size_t] and [ssize_t] on the 64-bit targets mavros builds for. *)
Definition SIZE_WIDTH : Z := 64.
Definition SSIZE_MAX : Z := 2 ^ 63 - 1.

(** Conversion of a mathematical integer to [size_t]. *)
Definition to_size_t (z : Z) : Z := z mod 2 ^ SIZE_WIDTH.

(** Conversion of a mathematical integer to [ssize_t] (two's complement). *)
Definition to_ssize_t (z : Z) : Z := (z + 2 ^ 63) mod 2 ^ SIZE_WIDTH - 2 ^ 63.

(** ** Exceptions, call outcomes, observable effects *)

Definition thread_id := nat.
Bind Scope nat_scope with thread_id.

Inductive exn :=
| length_error (what : string)      (* std::length_error *)
| system_error_deadlock.            (* std::system_error, "resource deadlock avoided" *)

(** How a call of a [void] member function ends. *)
Inductive outcome :=
| Returned
| Thrown (e : exn).

(** What a call does to the world outside the object's own fields. *)
Inductive effect :=
| EffLogError (msg : string)
| EffLogInform (msg : string)
| EffShutdownSend
| EffCancel
| EffSocketClose
| EffAcceptorClose
| EffIoWorkReset
| EffIoStop
| EffJoin (t : thread_id)
| EffIoReset
| EffPortClosedCb.

Definition is_closed_cb (e : effect) : bool :=
  match e with EffPortClosedCb => true | _ => false end.

Definition is_io_stop (e : effect) : bool :=
  match e with EffIoStop => true | _ => false end.

Definition is_join (e : effect) : bool :=
  match e with EffJoin _ => true | _ => false end.

(** Number of invocations of the closed-callback recorded in a trace. *)
Definition closed_cb_calls (tr : list effect) : nat :=
  length (filter (fun e => is_closed_cb e = true) tr).

(** ** Constants and types of absent headers *)

(** [MAX_TXQ_SIZE] is declared in [mavconn/interface.hpp] and the message
    types come from the MAVLink library; neither is among the sources, so
    the model takes them as parameters.  [encode] is the byte image that
    the [MsgBuffer] constructors build from a message. *)
Class LinkParams := {
  MAX_TXQ_SIZE : nat;
  Message : Type;
  encode : Message -> list byte;
}.

(** ** Outbound buffers *)

(** Modelled from the spec: [struct MsgBuffer] ([mavconn/msgbuffer.hpp]) is
    not among the sources.  The spec's OutboundBuffer is an immutable byte
    payload plus a mutable cursor [pos] counting the bytes transmitted so
    far; [tcp.cpp] uses its fields [len] and [pos] and its members
    [dpos()] and [nbytes()]. *)
Record MsgBuffer := mkMsgBuffer {
  data : list byte;
  len : Z;   (* ssize_t *)
  pos : Z;   (* ssize_t *)
}.

(** [MsgBuffer(bytes, nbytes)]: copy of the payload, cursor at 0. *)
Definition MsgBuffer_of_bytes (bytes : list byte) : MsgBuffer :=
  {| data := bytes; len := to_ssize_t (Z.of_nat (length bytes)); pos := 0 |}.

(** [nbytes()]: [len - pos]. *)
Definition nbytes (b : MsgBuffer) : Z := to_ssize_t (len b - pos b).

(** [dpos()]: [data + pos], the bytes from the cursor on. *)
Definition dpos (b : MsgBuffer) : list byte := drop (Z.to_nat (pos b)) (data b).

(** [buffer(p, n)]: the [n] bytes at [p]; [n] is a [size_t]. *)
Definition buffer (p : list byte) (n : Z) : list byte :=
  take (Z.to_nat (to_size_t n)) p.

(** [pos += bytes_transferred], the right operand being a [size_t]. *)
Definition advance (n : Z) (b : MsgBuffer) : MsgBuffer :=
  {| data := data b; len := len b; pos := to_ssize_t (pos b + n) |}.

(** The bytes of a buffer that have not been transmitted. *)
Definition unsent (b : MsgBuffer) : list byte := dpos b.

(** The cursor invariant of the spec. *)
Definition buf_ok (b : MsgBuffer) : Prop :=
  len b = Z.of_nat (length (data b)) /\ 0 <= pos b <= len b /\ len b <= SSIZE_MAX.

(** ** The client *)

Module MAVConnTCPClient.

(** An outstanding [async_send]: the byte range handed to the socket and
    the reference [buf_ref] captured by the completion handler.  A
    reference into a [std::deque] names a slot; slots are numbered by the
    order of their [emplace_back], so the front slot is the number of
    [pop_front] calls so far.  [emplace_back] leaves references valid and
    [pop_front] invalidates those to the erased slot only. *)
Record async_send_op := mkSendOp {
  op_bytes : list byte;
  buf_ref : nat;
}.

Record t := mkClient {
  sock_open : bool;                 (* socket.is_open() *)
  io_thread : option thread_id;     (* Some t while io_thread is joinable *)
  port_closed_cb : bool;            (* a closed-callback is installed *)
  tx_in_progress : bool;
  tx_q_front : nat;                 (* slot number of tx_q.front() *)
  tx_q : list MsgBuffer;            (* the slots of tx_q, front first *)
  sock_sends : list async_send_op;  (* outstanding async_send operations *)
  io_posted : nat;                  (* posted do_send(true) handlers not yet run *)
  wire : list byte;                 (* bytes the socket has transmitted *)
  tx_total_bytes : Z;               (* iostat counter, size_t *)
  trace : list effect;
}.

Definition set_sock_open (v : bool) (c : t) : t :=
  mkClient v (io_thread c) (port_closed_cb c) (tx_in_progress c) (tx_q_front c)
    (tx_q c) (sock_sends c) (io_posted c) (wire c) (tx_total_bytes c) (trace c).

Definition set_io_thread (v : option thread_id) (c : t) : t :=
  mkClient (sock_open c) v (port_closed_cb c) (tx_in_progress c) (tx_q_front c)
    (tx_q c) (sock_sends c) (io_posted c) (wire c) (tx_total_bytes c) (trace c).

Definition set_tx_in_progress (v : bool) (c : t) : t :=
  mkClient (sock_open c) (io_thread c) (port_closed_cb c) v (tx_q_front c)
    (tx_q c) (sock_sends c) (io_posted c) (wire c) (tx_total_bytes c) (trace c).

Definition set_tx_q (f : nat) (q : list MsgBuffer) (c : t) : t :=
  mkClient (sock_open c) (io_thread c) (port_closed_cb c) (tx_in_progress c) f
    q (sock_sends c) (io_posted c) (wire c) (tx_total_bytes c) (trace c).

Definition set_sock_sends (v : list async_send_op) (c : t) : t :=
  mkClient (sock_open c) (io_thread c) (port_closed_cb c) (tx_in_progress c)
    (tx_q_front c) (tx_q c) v (io_posted c) (wire c) (tx_total_bytes c) (trace c).

Definition set_io_posted (v : nat) (c : t) : t :=
  mkClient (sock_open c) (io_thread c) (port_closed_cb c) (tx_in_progress c)
    (tx_q_front c) (tx_q c) (sock_sends c) v (wire c) (tx_total_bytes c) (trace c).

Definition set_wire (v : list byte) (c : t) : t :=
  mkClient (sock_open c) (io_thread c) (port_closed_cb c) (tx_in_progress c)
    (tx_q_front c) (tx_q c) (sock_sends c) (io_posted c) v (tx_total_bytes c) (trace c).

Definition set_tx_total_bytes (v : Z) (c : t) : t :=
  mkClient (sock_open c) (io_thread c) (port_closed_cb c) (tx_in_progress c)
    (tx_q_front c) (tx_q c) (sock_sends c) (io_posted c) (wire c) v (trace c).

Definition emit (e : effect) (c : t) : t :=
  mkClient (sock_open c) (io_thread c) (port_closed_cb c) (tx_in_progress c)
    (tx_q_front c) (tx_q c) (sock_sends c) (io_posted c) (wire c)
    (tx_total_bytes c) (trace c ++ [e]).

(** [is_open()] is declared in [mavconn/tcp.hpp] as [socket.is_open()]. *)
Definition is_open (c : t) : bool := sock_open c.

(** [connect(cb_handle_message, cb_handle_closed_port)], the reactor
    thread being [io], for a caller that passes a non-empty
    [cb_handle_closed_port]. *)
Definition connect (io : thread_id) (c : t) : t :=
  mkClient (sock_open c) (Some io) true (tx_in_progress c) (tx_q_front c)
    (tx_q c) (sock_sends c) (io_posted c) (wire c) (tx_total_bytes c) (trace c).

(** *** The queue as a [std::deque] *)

Definition tx_q_emplace_back (b : MsgBuffer) (c : t) : t :=
  set_tx_q (tx_q_front c) (tx_q c ++ [b]) c.

Definition tx_q_pop_front (c : t) : t :=
  set_tx_q (S (tx_q_front c)) (tail (tx_q c)) c.

(** The slot a reference names, if it still exists. *)
Definition deref (r : nat) (c : t) : option MsgBuffer :=
  if decide (tx_q_front c <= r)%nat then tx_q c !! (r - tx_q_front c)%nat else None.

(** Assignment through a live reference. *)
Definition assign (r : nat) (b : MsgBuffer) (c : t) : t :=
  set_tx_q (tx_q_front c) (<[(r - tx_q_front c)%nat := b]> (tx_q c)) c.

(** Number of [emplace_back] calls so far. *)
Definition tx_q_back (c : t) : nat := (tx_q_front c + length (tx_q c))%nat.

(** *** [stop()] and [close()] *)

(** [io_thread.join()] called by thread [caller]: joining oneself raises
    "resource deadlock avoided", as the comment in [close()] recalls. *)
Definition stop (caller : thread_id) (c : t) : outcome * t :=
  let c := emit EffIoStop (emit EffIoWorkReset c) in
  match io_thread c with
  | Some th =>
      if decide (caller = th) then (Thrown system_error_deadlock, c)
      else (Returned, emit EffIoReset (set_io_thread None (emit (EffJoin th) c)))
  | None => (Returned, emit EffIoReset c)
  end.

Definition close (caller : thread_id) (c : t) : outcome * t :=
  if negb (is_open c) then (Returned, c)
  else
    let c := emit EffShutdownSend c in
    let c := emit EffCancel c in
    let c := set_sock_open false (emit EffSocketClose c) in
    let r := if decide (Some caller <> io_thread c) then stop caller c
             else (Returned, c) in
    match r with
    | (Thrown e, c) => (Thrown e, c)
    | (Returned, c) =>
        if port_closed_cb c then (Returned, emit EffPortClosedCb c)
        else (Returned, c)
    end.

(** *** Sending *)

Section Send.
Context `{LinkParams}.

Definition post_do_send (c : t) : t := set_io_posted (S (io_posted c)) c.

Definition send_bytes (bytes : list byte) (c : t) : outcome * t :=
  if negb (is_open c) then
    (Returned, emit (EffLogError "send: channel closed!") c)
  else if decide (MAX_TXQ_SIZE <= length (tx_q c))%nat then
    (Thrown (length_error "MAVConnTCPClient::send_bytes: TX queue overflow"), c)
  else
    (Returned, post_do_send (tx_q_emplace_back (MsgBuffer_of_bytes bytes) c)).

Definition send_message (message : Message) (c : t) : outcome * t :=
  if negb (is_open c) then
    (Returned, emit (EffLogError "send: channel closed!") c)
  else if decide (MAX_TXQ_SIZE <= length (tx_q c))%nat then
    (Thrown (length_error "MAVConnTCPClient::send_message: TX queue overflow"), c)
  else
    (Returned, post_do_send (tx_q_emplace_back (MsgBuffer_of_bytes (encode message)) c)).

End Send.

(** [iostat_tx_add(bytes)] of the interface base class. *)
Definition iostat_tx_add (n : Z) (c : t) : t :=
  set_tx_total_bytes (to_size_t (tx_total_bytes c + n)) c.

(** [do_send(check_tx_state)]: start the write of the front buffer. *)
Definition do_send (check_tx_state : bool) (c : t) : t :=
  if check_tx_state && tx_in_progress c then c
  else
    match tx_q c with
    | [] => c
    | front :: _ =>
        let c := set_tx_in_progress true c in
        set_sock_sends
          (sock_sends c ++
             [{| op_bytes := buffer (dpos front) (nbytes front);
                 buf_ref := tx_q_front c |}]) c
    end.

(** The completion handler of [async_send], run by the reactor thread
    [io] with the captured reference [r].  [None] stands for undefined
    behaviour: a use of the reference after its slot was erased.  The
    handler's opening [assert] is the predicate [sent_assert] below. *)
Definition on_sent (io : thread_id) (r : nat) (error : bool) (bytes_transferred : Z)
    (c : t) : option (outcome * t) :=
  if error then
    Some (close io (emit (EffLogError "send") c))
  else
    let c := iostat_tx_add bytes_transferred c in
    match tx_q c with
    | [] => Some (Returned, set_tx_in_progress false c)
    | _ :: _ =>
        match deref r c with
        | None => None
        | Some b =>
            let b := advance bytes_transferred b in
            let c := assign r b c in
            let c := if decide (nbytes b = 0) then tx_q_pop_front c else c in
            match tx_q c with
            | _ :: _ => Some (Returned, do_send false c)
            | [] => Some (Returned, set_tx_in_progress false c)
            end
        end
    end.


(** How the completion handler ends in a build that compiles [assert]
    in. *)
Inductive handled :=
| Handled (r : outcome * t)
| AssertFailed      (* the assertion is false: abort() *)
| ErasedRead.       (* a read through a reference to an erased slot *)

(** The completion handler of [async_send] with its opening statement as
    such a build runs it: the [assert] reads [buf_ref.len] before the
    error test and before the test of the empty queue. *)
Definition on_sent_asserting (io : thread_id) (r : nat) (error : bool)
    (bytes_transferred : Z) (c : t) : handled :=
  match deref r c with
  | None => ErasedRead
  | Some b =>
      if decide (to_ssize_t bytes_transferred <= len b) then
        match on_sent io r error bytes_transferred c with
        | Some res => Handled res
        | None => ErasedRead
        end
      else AssertFailed
  end.

(** *** The client as a transition system *)

Section Events.
Context `{LinkParams}.

(** What can happen to a client: calls made by some thread, and handlers
    run by the reactor. *)
Inductive event :=
| CallConnect (io : thread_id)
| CallSendBytes (bytes : list byte)
| CallSendMessage (message : Message)
| CallClose (caller : thread_id)
| RunDoSend
| SendDone (io : thread_id) (error : bool) (bytes_transferred : Z)
| RecvError (io : thread_id).

Inductive step_result :=
| Step (o : outcome) (c : t)
| NotEnabled
| Undefined.

Definition of_call (r : outcome * t) : step_result := Step (fst r) (snd r).

(** One event.  A payload is at most [SSIZE_MAX] bytes long; [connect()]
    is called at most once; the reactor runs a posted handler only if
    there is one; an [async_send] completes only if one is outstanding,
    with at most the bytes it was given, and with none on error. *)
Definition step (e : event) (c : t) : step_result :=
  match e with
  | CallConnect io =>
      match io_thread c with
      | None => Step Returned (connect io c)
      | Some _ => NotEnabled
      end
  | CallSendBytes bytes =>
      if decide (Z.of_nat (length bytes) <= SSIZE_MAX)
      then of_call (send_bytes bytes c) else NotEnabled
  | CallSendMessage message =>
      if decide (Z.of_nat (length (encode message)) <= SSIZE_MAX)
      then of_call (send_message message c) else NotEnabled
  | CallClose caller => of_call (close caller c)
  | RunDoSend =>
      match io_posted c with
      | O => NotEnabled
      | S k => Step Returned (do_send true (set_io_posted k c))
      end
  | SendDone io error n =>
      match sock_sends c with
      | [] => NotEnabled
      | op :: rest =>
          if decide (0 <= n <= Z.of_nat (length (op_bytes op)) /\ (error = true -> n = 0))
          then
            let c := set_sock_sends rest c in
            let c := set_wire (wire c ++ take (Z.to_nat n) (op_bytes op)) c in
            match on_sent io (buf_ref op) error n c with
            | Some r => of_call r
            | None => Undefined
            end
          else NotEnabled
      end
  | RecvError io => of_call (close io (emit (EffLogError "receive") c))
  end.

(** The payload an event has put into the queue, if any. *)
Definition enqueued (e : event) (c c' : t) : list (list byte) :=
  if decide (tx_q_back c < tx_q_back c')%nat then
    match e with
    | CallSendBytes bytes => [bytes]
    | CallSendMessage message => [encode message]
    | _ => []
    end
  else [].

(** A run: the events in order, one that is not enabled being skipped.
    The result is the final state with the payloads enqueued on the way;
    [None] is undefined behaviour. *)
Fixpoint run (evs : list event) (c : t) : option (t * list (list byte)) :=
  match evs with
  | [] => Some (c, [])
  | e :: evs =>
      match step e c with
      | Step _ c' =>
          match run evs c' with
          | Some (c'', ps) => Some (c'', enqueued e c c' ++ ps)
          | None => None
          end
      | NotEnabled => run evs c
      | Undefined => None
      end
  end.

(** The bytes the [i]-th write completion transfers when the transport
    would take [want] of the [size] bytes offered: at least one, at most
    all. *)
Definition chunk (want : Z) (size : nat) : Z :=
  Z.min (Z.of_nat size) (Z.max 1 want).

(** The send loop as the reactor [io] runs it: complete the outstanding
    write, else run a posted [do_send], until neither is left. *)
Fixpoint io_run (io : thread_id) (want : nat -> Z) (fuel i : nat) (c : t) : option t :=
  match fuel with
  | O => None
  | S fuel =>
      match sock_sends c with
      | op :: _ =>
          match step (SendDone io false (chunk (want i) (length (op_bytes op)))) c with
          | Step _ c' => io_run io want fuel (S i) c'
          | _ => None
          end
      | [] =>
          match io_posted c with
          | O => Some c
          | S _ =>
              match step RunDoSend c with
              | Step _ c' => io_run io want fuel i c'
              | _ => None
              end
          end
      end
  end.

End Events.

(** The state in which a client starts: the first constructor leaves the
    socket open and no callback; a client made by the server's
    [do_accept] enters the registry with the socket open and the
    callbacks wired.  Nothing is queued. *)
Definition fresh (opened cb : bool) : t :=
  mkClient opened None cb false 0 [] [] 0 [] 0 [].

(** All bytes still queued. *)
Definition pending (c : t) : list byte := concat (unsent <$> tx_q c).

(** *** Invariants of the send path *)

(** At most one [async_send] is outstanding; it was given the unsent
    bytes of the front buffer, and its handler refers to the front slot. *)
Definition one_write (c : t) : Prop :=
  match sock_sends c with
  | [] => True
  | [op] =>
      tx_in_progress c = true /\ buf_ref op = tx_q_front c /\
      exists b rest, tx_q c = b :: rest /\ op_bytes op = unsent b
  | _ => False
  end.

(** While the socket is open the flag tells whether a write is
    outstanding, and queued work has a write or a posted [do_send]. *)
Definition busy (c : t) : Prop :=
  sock_open c = true ->
  (tx_in_progress c = true -> sock_sends c <> []) /\
  (tx_q c <> [] -> sock_sends c <> [] \/ (0 < io_posted c)%nat).

Record inv `{LinkParams} (c : t) : Prop := mkInv {
  inv_bufs : Forall buf_ok (tx_q c);
  inv_write : one_write c;
  inv_busy : busy c;
  inv_bound : (length (tx_q c) <= MAX_TXQ_SIZE)%nat;
}.

(** The fields of the send path agree. *)
Definition same_tx (c c' : t) : Prop :=
  tx_in_progress c' = tx_in_progress c /\ tx_q_front c' = tx_q_front c /\
  tx_q c' = tx_q c /\ sock_sends c' = sock_sends c /\
  io_posted c' = io_posted c /\ wire c' = wire c.

(** The state in which the handler of a successful write leaves the
    client, when its reference is to the front slot [b]. *)
Definition sent_state (n : Z) (b : MsgBuffer) (rest : list MsgBuffer) (c : t) : t :=
  let c := iostat_tx_add n c in
  if decide (pos b + n = len b) then
    match rest with
    | [] => set_tx_in_progress false (set_tx_q (S (tx_q_front c)) [] c)
    | _ :: _ => do_send false (set_tx_q (S (tx_q_front c)) rest c)
    end
  else do_send false (set_tx_q (tx_q_front c) (advance n b :: rest) c).

(** The bytes transmitted followed by the bytes still queued. *)
Definition stream (c : t) : list byte := wire c ++ pending c.

(** What is left to do before the send loop is idle. *)
Definition work (c : t) : nat :=
  (length (pending c) + length (tx_q c) + io_posted c)%nat.

End MAVConnTCPClient.

(** ** The server *)

(** Counter types of absent headers: [mavlink_status_t] is declared by
    the MAVLink library and [IOStat] in [mavconn/interface.hpp].  The
    model takes a type with the zero of value initialisation and the
    [+=] of the field for each of them. *)
Class Num (A : Type) := {
  num_zero : A;
  num_add : A -> A -> A;
}.

(** Left-to-right sum from zero, the order in which a loop adds. *)
Definition num_sum `{Num A} (l : list A) : A := foldl num_add num_zero l.

(** A [w]-bit unsigned counter. *)
Definition uint_num (w : Z) : Num Z :=
  {| num_zero := 0; num_add := fun a b => (a + b) mod 2 ^ w |}.

Module MAVConnTCPServer.

Module Client := MAVConnTCPClient.

(** A [std::shared_ptr<MAVConnTCPClient>]: the address it compares by and
    the object it keeps alive. *)
Record shared_ptr := mkShared {
  sp_addr : nat;
  sp_obj : Client.t;
}.

(** A [std::weak_ptr<MAVConnTCPClient>]: the address it observes, and
    whether the object is gone ([expired()]). *)
Record weak_ptr := mkWeak {
  wp_addr : nat;
  wp_expired : bool;
}.

(** [weak_instp.lock()]. *)
Definition lock (w : weak_ptr) : option nat :=
  if wp_expired w then None else Some (wp_addr w).

Record t := mkServer {
  acceptor_open : bool;             (* acceptor.is_open() *)
  io_thread : option thread_id;     (* Some t while io_thread is joinable *)
  port_closed_cb : bool;            (* a closed-callback is installed *)
  client_list : list shared_ptr;
  trace : list effect;
}.

Definition set_acceptor_open (v : bool) (s : t) : t :=
  mkServer v (io_thread s) (port_closed_cb s) (client_list s) (trace s).

Definition set_io_thread (v : option thread_id) (s : t) : t :=
  mkServer (acceptor_open s) v (port_closed_cb s) (client_list s) (trace s).

Definition set_client_list (v : list shared_ptr) (s : t) : t :=
  mkServer (acceptor_open s) (io_thread s) (port_closed_cb s) v (trace s).

Definition emit (e : effect) (s : t) : t :=
  mkServer (acceptor_open s) (io_thread s) (port_closed_cb s) (client_list s)
    (trace s ++ [e]).

(** [is_open()] is declared in [mavconn/tcp.hpp] as [acceptor.is_open()]. *)
Definition is_open (s : t) : bool := acceptor_open s.

(** A server after its constructor and [connect()], run by thread [io]. *)
Definition listening (io : thread_id) : t :=
  mkServer true (Some io) true [] [].

(** [close()], called by thread [caller].  The mutex that the call holds
    from its first line to its last, across the join, is not modelled:
    [Returned] says that the call does not raise, not that the join
    comes back. *)
Definition close (caller : thread_id) (s : t) : outcome * t :=
  if negb (is_open s) then (Returned, s)
  else
    let s := emit (EffLogInform "Terminating server. All connections will be closed.") s in
    let s := emit EffIoStop s in
    let s := set_acceptor_open false (emit EffAcceptorClose s) in
    let r := match io_thread s with
             | Some th =>
                 if decide (caller = th) then (Thrown system_error_deadlock, s)
                 else (Returned, set_io_thread None (emit (EffJoin th) s))
             | None => (Returned, s)
             end in
    match r with
    | (Thrown e, s) => (Thrown e, s)
    | (Returned, s) =>
        if port_closed_cb s then (Returned, emit EffPortClosedCb s)
        else (Returned, s)
    end.

(** [client_closed(weak_instp)]; [std::list::remove] erases every element
    that compares equal. *)
Definition client_closed (weak_instp : weak_ptr) (s : t) : t :=
  match lock weak_instp with
  | Some instp =>
      let s := emit (EffLogInform "Client connection closed") s in
      set_client_list (filter (fun e => sp_addr e <> instp) (client_list s)) s
  | None => s
  end.

(** The object [do_accept] has made once [async_accept] filled in its
    socket and the handler wired its callbacks. *)
Definition acceptor_client (addr : nat) : shared_ptr :=
  mkShared addr (Client.fresh true true).

(** The completion handler of [async_accept], run by the reactor [io];
    [addr] is where [make_shared] put the new client. *)
Definition on_accept (io : thread_id) (addr : nat) (error : bool) (s : t) : outcome * t :=
  if error then close io (emit (EffLogError "accept") s)
  else (Returned, set_client_list (client_list s ++ [acceptor_client addr]) s).

(** *** Broadcast *)

Section Broadcast.
Context `{LinkParams}.

(** [for (auto & instp : client_list) instp->send_bytes(bytes, length)]:
    an exception leaves the loop. *)
Fixpoint send_bytes_loop (bytes : list byte) (l : list shared_ptr)
    : outcome * list shared_ptr :=
  match l with
  | [] => (Returned, [])
  | instp :: rest =>
      match Client.send_bytes bytes (sp_obj instp) with
      | (Thrown e, c) => (Thrown e, mkShared (sp_addr instp) c :: rest)
      | (Returned, c) =>
          let r := send_bytes_loop bytes rest in
          (fst r, mkShared (sp_addr instp) c :: snd r)
      end
  end.

Definition send_bytes (bytes : list byte) (s : t) : outcome * t :=
  let r := send_bytes_loop bytes (client_list s) in
  (fst r, set_client_list (snd r) s).

Fixpoint send_message_loop (message : Message) (l : list shared_ptr)
    : outcome * list shared_ptr :=
  match l with
  | [] => (Returned, [])
  | instp :: rest =>
      match Client.send_message message (sp_obj instp) with
      | (Thrown e, c) => (Thrown e, mkShared (sp_addr instp) c :: rest)
      | (Returned, c) =>
          let r := send_message_loop message rest in
          (fst r, mkShared (sp_addr instp) c :: snd r)
      end
  end.

Definition send_message (message : Message) (s : t) : outcome * t :=
  let r := send_message_loop message (client_list s) in
  (fst r, set_client_list (snd r) s).

End Broadcast.

(** *** Statistics *)

Section Status.
Context {uint8_t uint16_t : Type} `{!Num uint8_t, !Num uint16_t}.

Record mavlink_status_t := mkStatus {
  packet_rx_success_count : uint16_t;
  packet_rx_drop_count : uint16_t;
  buffer_overrun : uint8_t;
  parse_error : uint8_t;
}.

(** [mavlink_status_t status {}]. *)
Definition status_zero : mavlink_status_t :=
  mkStatus num_zero num_zero num_zero num_zero.

(** [MAVConnInterface::get_status()] of a client is defined in
    [interface.cpp], which is not among the sources: a parameter. *)
Context (inst_get_status : Client.t -> mavlink_status_t).

(** The body of the loop of [get_status()]. *)
Definition status_add (status : mavlink_status_t) (instp : shared_ptr)
    : mavlink_status_t :=
  let inst_status := inst_get_status (sp_obj instp) in
  let status := mkStatus
    (num_add (packet_rx_success_count status) (packet_rx_success_count inst_status))
    (packet_rx_drop_count status) (buffer_overrun status) (parse_error status) in
  let status := mkStatus (packet_rx_success_count status)
    (num_add (packet_rx_drop_count status) (packet_rx_drop_count inst_status))
    (buffer_overrun status) (parse_error status) in
  let status := mkStatus (packet_rx_success_count status) (packet_rx_drop_count status)
    (num_add (buffer_overrun status) (buffer_overrun inst_status))
    (parse_error status) in
  mkStatus (packet_rx_success_count status) (packet_rx_drop_count status)
    (buffer_overrun status)
    (num_add (parse_error status) (parse_error inst_status)).

Definition get_status (s : t) : mavlink_status_t :=
  foldl status_add status_zero (client_list s).

End Status.

Section IOStat.
Context {size_t float : Type} `{!Num size_t, !Num float}.

Record IOStat := mkIOStat {
  tx_total_bytes : size_t;
  tx_speed : float;
  rx_total_bytes : size_t;
  rx_speed : float;
}.

(** [MAVConnInterface::IOStat iostat {}]. *)
Definition iostat_zero : IOStat := mkIOStat num_zero num_zero num_zero num_zero.

(** [MAVConnInterface::get_iostat()] of a client, defined in
    [interface.cpp]: a parameter, the sample it returns at this call. *)
Context (inst_get_iostat : Client.t -> IOStat).

(** The body of the loop of [get_iostat()]. *)
Definition iostat_add (iostat : IOStat) (instp : shared_ptr) : IOStat :=
  let inst_iostat := inst_get_iostat (sp_obj instp) in
  let iostat := mkIOStat
    (num_add (tx_total_bytes iostat) (tx_total_bytes inst_iostat))
    (tx_speed iostat) (rx_total_bytes iostat) (rx_speed iostat) in
  let iostat := mkIOStat (tx_total_bytes iostat)
    (num_add (tx_speed iostat) (tx_speed inst_iostat))
    (rx_total_bytes iostat) (rx_speed iostat) in
  let iostat := mkIOStat (tx_total_bytes iostat) (tx_speed iostat)
    (num_add (rx_total_bytes iostat) (rx_total_bytes inst_iostat))
    (rx_speed iostat) in
  mkIOStat (tx_total_bytes iostat) (tx_speed iostat) (rx_total_bytes iostat)
    (num_add (rx_speed iostat) (rx_speed inst_iostat)).

Definition get_iostat (s : t) : IOStat :=
  foldl iostat_add iostat_zero (client_list s).

End IOStat.

End MAVConnTCPServer.

(** ** Specification vocabulary *)

Section QueueChange.
Context `{LinkParams}.
Import MAVConnTCPClient.

(** What one event may do to the queue: a send appends one buffer with
    its cursor at 0 or leaves the queue alone; a successful completion of
    [n] bytes moves the cursor of the front buffer by [n], and erases the
    buffer exactly when the cursor has reached its length; nothing else
    touches the queue. *)
Definition queue_change (e : event) (c c' : t) : Prop :=
  match e with
  | CallSendBytes bytes =>
      tx_q c' = tx_q c \/ tx_q c' = tx_q c ++ [MsgBuffer_of_bytes bytes]
  | CallSendMessage message =>
      tx_q c' = tx_q c \/ tx_q c' = tx_q c ++ [MsgBuffer_of_bytes (encode message)]
  | SendDone _ false n =>
      exists b rest, tx_q c = b :: rest /\
        pos (advance n b) = pos b + n /\
        (pos b + n = len b /\ tx_q c' = rest \/
         pos b + n <> len b /\ tx_q c' = advance n b :: rest)
  | _ => tx_q c' = tx_q c
  end.

End QueueChange.

(** ** Vocabulary of the server's claims *)

Section Attempt.
Context `{LinkParams}.
Import MAVConnTCPServer.

(** A registry entry after a delivery attempt. *)
Definition attempt_bytes (bytes : list byte) (instp : shared_ptr) : shared_ptr :=
  mkShared (sp_addr instp) (snd (Client.send_bytes bytes (sp_obj instp))).

Definition attempt_message (message : Message) (instp : shared_ptr) : shared_ptr :=
  mkShared (sp_addr instp) (snd (Client.send_message message (sp_obj instp))).

(** The client's own send returns. *)
Definition bytes_returns (bytes : list byte) (instp : shared_ptr) : Prop :=
  fst (Client.send_bytes bytes (sp_obj instp)) = Returned.

Definition message_returns (message : Message) (instp : shared_ptr) : Prop :=
  fst (Client.send_message message (sp_obj instp)) = Returned.

End Attempt.

(** The addresses held by a registry, in order. *)
Definition addrs (l : list MAVConnTCPServer.shared_ptr) : list nat :=
  MAVConnTCPServer.sp_addr <$> l.

(** ** Address resolution and construction *)

(** A [tcp::endpoint]: an address and a port ([uint16_t]). *)
Record endpoint := mkEndpoint {
  ep_addr : Z;
  ep_port : Z;
}.

(** What [resolve_address_tcp] writes to the log. *)
Inductive resolve_log :=
| LogResolved (ep : endpoint)
| LogResolveError.

(** [resolve_address_tcp(io, chan, host, port, ep)].  The resolver is
    asio's: the model takes what [resolver.resolve(query, ec)] yields,
    the endpoints [resolved] in the order of the results and whether [ec]
    is set.  The result is the returned flag, the endpoint left in [ep]
    and the log. *)
Definition resolve_fn (port : Z) (st : bool * endpoint * list resolve_log)
    (q_ep : endpoint) : bool * endpoint * list resolve_log :=
  let ep := mkEndpoint (ep_addr q_ep) port in
  (true, ep, snd st ++ [LogResolved ep]).

Definition resolve_address_tcp (resolved : list endpoint) (ec : bool) (port : Z)
    (ep : endpoint) : bool * endpoint * list resolve_log :=
  let st := foldl (resolve_fn port) (false, ep, []) resolved in
  if ec then (false, snd (fst st), snd st ++ [LogResolveError]) else st.

(** [DeviceError(module, msg)]. *)
Inductive device_error :=
| DeviceError (module msg : string).

(** How a constructor ends. *)
Inductive constructed (A : Type) :=
| Built (a : A)
| Failed (e : device_error).
Arguments Built {A} a.
Arguments Failed {A} e.

(** A default-constructed [tcp::endpoint]. *)
Definition endpoint_default : endpoint := mkEndpoint 0 0.

(** The first constructor of [MAVConnTCPClient]: resolve, then open and
    connect the socket; [connect_err] is the [asio::system_error] of
    [socket.open]/[socket.connect], if any.  The result is [server_ep]
    with the client. *)
Definition MAVConnTCPClient_new (resolved : list endpoint) (ec : bool) (port : Z)
    (connect_err : option string) : constructed (endpoint * MAVConnTCPClient.t) :=
  let r := resolve_address_tcp resolved ec port endpoint_default in
  if negb (fst (fst r)) then
    Failed (DeviceError "tcp: resolve" "Bind address resolve failed")
  else
    match connect_err with
    | Some err => Failed (DeviceError "tcp" err)
    | None => Built (snd (fst r), MAVConnTCPClient.fresh true false)
    end.

(** The constructor of [MAVConnTCPServer]: resolve, then open, bind and
    listen; [bind_err] is the [asio::system_error] of these, if any.  The
    result is [bind_ep] with the server. *)
Definition MAVConnTCPServer_new (resolved : list endpoint) (ec : bool) (port : Z)
    (bind_err : option string) : constructed (endpoint * MAVConnTCPServer.t) :=
  let r := resolve_address_tcp resolved ec port endpoint_default in
  if negb (fst (fst r)) then
    Failed (DeviceError "tcp-l: resolve" "Bind address resolve failed")
  else
    match bind_err with
    | Some err => Failed (DeviceError "tcp-l" err)
    | None => Built (snd (fst r), MAVConnTCPServer.mkServer true None false [] [])
    end.

(** ** The accept loop *)

Module Acceptor.

Module Server := MAVConnTCPServer.

(** A server with the state of its accept loop: the [is_destroying]
    flag, whether [connect()] has been called, the posted [do_accept]
    handlers, and the outstanding [async_accept] operations, each with
    the address of the client that [make_shared] made for it. *)
Record t := mkAcceptor {
  srv : Server.t;
  is_destroying : bool;
  started : bool;
  io_posted : nat;
  accepting : list nat;
}.

Definition set_srv (s : Server.t) (a : t) : t :=
  mkAcceptor s (is_destroying a) (started a) (io_posted a) (accepting a).

(** A server as its constructor leaves it. *)
Definition constructed_server : t :=
  mkAcceptor (Server.mkServer true None false [] []) false false 0 [].

(** [connect(cb_handle_message, cb_handle_closed_port)], the thread made
    being [io]. *)
Definition connect (io : thread_id) (a : t) : t :=
  mkAcceptor
    (Server.mkServer (Server.acceptor_open (srv a)) (Some io) true
       (Server.client_list (srv a)) (Server.trace (srv a)))
    (is_destroying a) true (S (io_posted a)) (accepting a).

(** [do_accept()], [addr] being where [make_shared] puts the new client. *)
Definition do_accept (addr : nat) (a : t) : t :=
  if is_destroying a then a
  else mkAcceptor (srv a) (is_destroying a) (started a) (io_posted a)
         (accepting a ++ [addr]).

(** The completion handler of [async_accept] for the client at [addr],
    run by the reactor [io]; [next] is the address of the client that the
    chained [do_accept] makes. *)
Definition accepted (io : thread_id) (addr next : nat) (error : bool) (a : t)
    : outcome * t :=
  let r := Server.on_accept io addr error (srv a) in
  if error then (fst r, set_srv (snd r) a)
  else (Returned, do_accept next (set_srv (snd r) a)).

(** The destructor. *)
Definition destroy (caller : thread_id) (a : t) : outcome * t :=
  let a := mkAcceptor (srv a) true (started a) (io_posted a) (accepting a) in
  let r := Server.close caller (srv a) in
  (fst r, set_srv (snd r) a).

Section Events.
Context `{LinkParams}.

Inductive event :=
| CallConnect (io : thread_id)
| RunDoAccept (addr : nat)
| AcceptDone (io : thread_id) (next : nat) (error : bool)
| ClientClosed (w : Server.weak_ptr)
| CallSendBytes (bytes : list byte)
| CallClose (caller : thread_id)
| Destroy (caller : thread_id).

(** The objects alive at the server: the registered clients and those
    waiting in an [async_accept].  [make_shared] returns the address of
    none of them. *)
Definition alive (a : t) : list nat :=
  addrs (Server.client_list (srv a)) ++ accepting a.

(** One event; [None] when it is not enabled: [connect()] is called at
    most once, the reactor runs a posted handler only if there is one,
    an [async_accept] completes only if one is outstanding, and a new
    client is at the address of no live one. *)
Definition step (e : event) (a : t) : option (outcome * t) :=
  match e with
  | CallConnect io =>
      if started a then None else Some (Returned, connect io a)
  | RunDoAccept addr =>
      match io_posted a with
      | O => None
      | S k =>
          if decide (addr ∈ alive a) then None
          else Some (Returned,
                 do_accept addr
                   (mkAcceptor (srv a) (is_destroying a) (started a) k (accepting a)))
      end
  | AcceptDone io next error =>
      match accepting a with
      | [] => None
      | addr :: rest =>
          if decide (next ∈ alive a) then None
          else Some (accepted io addr next error
                 (mkAcceptor (srv a) (is_destroying a) (started a) (io_posted a) rest))
      end
  | ClientClosed w => Some (Returned, set_srv (Server.client_closed w (srv a)) a)
  | CallSendBytes bytes =>
      let r := Server.send_bytes bytes (srv a) in
      Some (fst r, set_srv (snd r) a)
  | CallClose caller =>
      let r := Server.close caller (srv a) in
      Some (fst r, set_srv (snd r) a)
  | Destroy caller => Some (destroy caller a)
  end.

(** A run, events that are not enabled being skipped. *)
Fixpoint run (evs : list event) (a : t) : t :=
  match evs with
  | [] => a
  | e :: evs =>
      match step e a with
      | Some r => run evs (snd r)
      | None => run evs a
      end
  end.

(** The number of clients that the events of a run register. *)
Fixpoint registered (evs : list event) (a : t) : nat :=
  match evs with
  | [] => O
  | e :: evs =>
      match step e a with
      | Some r =>
          ((match e with
            | AcceptDone _ _ false => 1
            | _ => 0
            end) + registered evs (snd r))%nat
      | None => registered evs a
      end
  end.

End Events.

(** The accept loop keeps one operation going: a posted [do_accept] or an
    outstanding [async_accept], never both, never two; and the live
    objects are at different addresses. *)
Definition inv (a : t) : Prop :=
  (io_posted a + length (accepting a) <= 1)%nat /\
  (started a = false -> io_posted a = O /\ accepting a = []) /\
  NoDup (addrs (Server.client_list (srv a)) ++ accepting a).

(** The accept loop has ended. *)
Definition ended (a : t) : Prop :=
  started a = true /\ io_posted a = O /\ accepting a = [].

End Acceptor.

(** ** Vocabulary of further properties *)

(** The closed-callback has run at most once, and not yet while the
    socket is open. *)
Definition closed_once (c : MAVConnTCPClient.t) : Prop :=
  (MAVConnTCPClient.sock_open c = true ->
   closed_cb_calls (MAVConnTCPClient.trace c) = O) /\
  (closed_cb_calls (MAVConnTCPClient.trace c) <= 1)%nat.

(** The state in which a failed write leaves the send path: socket
    closed, no write outstanding, the flag still up. *)
Definition send_dead (c : MAVConnTCPClient.t) : Prop :=
  MAVConnTCPClient.sock_open c = false /\
  MAVConnTCPClient.sock_sends c = [] /\
  MAVConnTCPClient.tx_in_progress c = true.

Section SendAll.
Context `{LinkParams}.

(** [send_bytes] called for each payload in turn, with the outcomes. *)
Fixpoint send_all (ps : list (list byte)) (c : MAVConnTCPClient.t)
    : list outcome * MAVConnTCPClient.t :=
  match ps with
  | [] => ([], c)
  | p :: ps =>
      let r := MAVConnTCPClient.send_bytes p c in
      let r' := send_all ps (snd r) in
      (fst r :: fst r', snd r')
  end.

End SendAll.

(** ** Small instances for examples *)

(** A link whose queue holds two buffers, a message being its own byte
    image. *)
Definition small_link : LinkParams :=
  {| MAX_TXQ_SIZE := 2; Message := list byte; encode := fun m => m |}.

(** A connected client closed by thread 7 before [connect()]. *)
Definition closed_client : MAVConnTCPClient.t :=
  snd (MAVConnTCPClient.close 7%nat (MAVConnTCPClient.fresh true false)).

(** An accepted client of [small_link] whose queue is full: two sends,
    the reactor not having run yet. *)
Definition full_client : MAVConnTCPClient.t :=
  snd (MAVConnTCPClient.send_bytes (H := small_link) ["b"]%byte
    (snd (MAVConnTCPClient.send_bytes (H := small_link) ["a"]%byte
       (MAVConnTCPClient.fresh true true)))).

(** A server run by thread 1 with two clients, the first with a full
    queue. *)
Definition two_clients : MAVConnTCPServer.t :=
  MAVConnTCPServer.mkServer true (Some 1%nat) true
    [MAVConnTCPServer.mkShared 10 full_client;
     MAVConnTCPServer.mkShared 11 (MAVConnTCPClient.fresh true true)] [].

(** * Properties *)

(** ** Machine integers and buffers *)

Lemma to_ssize_t_small z :
  - 2 ^ 63 <= z <= SSIZE_MAX -> to_ssize_t z = z.
Proof.
  unfold to_ssize_t, SSIZE_MAX, SIZE_WIDTH. intros Hz.
  rewrite Z.mod_small; lia.
Qed.

Lemma to_size_t_small z :
  0 <= z <= SSIZE_MAX -> to_size_t z = z.
Proof.
  unfold to_size_t, SSIZE_MAX, SIZE_WIDTH. intros Hz.
  rewrite Z.mod_small; lia.
Qed.

Lemma SSIZE_MAX_pos : 0 < SSIZE_MAX.
Proof. reflexivity. Qed.

Lemma buf_ok_of_bytes bytes :
  Z.of_nat (length bytes) <= SSIZE_MAX -> buf_ok (MsgBuffer_of_bytes bytes).
Proof.
  intros Hlen. unfold buf_ok, MsgBuffer_of_bytes; simpl.
  rewrite to_ssize_t_small by (unfold SSIZE_MAX in *; lia).
  lia.
Qed.

Lemma unsent_of_bytes bytes : unsent (MsgBuffer_of_bytes bytes) = bytes.
Proof. reflexivity. Qed.

Lemma length_unsent b :
  buf_ok b -> Z.of_nat (length (unsent b)) = len b - pos b.
Proof.
  intros (Hlen & Hpos & _). unfold unsent, dpos.
  rewrite length_drop. lia.
Qed.

Lemma nbytes_ok b : buf_ok b -> nbytes b = len b - pos b.
Proof.
  intros (Hlen & Hpos & Hmax). unfold nbytes.
  apply to_ssize_t_small. unfold SSIZE_MAX in *; lia.
Qed.

(** The write that [do_send] starts offers exactly the unsent bytes. *)
Lemma buffer_dpos b : buf_ok b -> buffer (dpos b) (nbytes b) = unsent b.
Proof.
  intros Hb. pose proof (length_unsent b Hb) as Hl.
  pose proof Hb as (Hlen & Hpos & Hmax).
  unfold buffer. rewrite (nbytes_ok b Hb).
  rewrite to_size_t_small by lia.
  unfold unsent in *. apply take_ge. lia.
Qed.

Lemma pos_advance n b :
  buf_ok b -> 0 <= n <= len b - pos b -> pos (advance n b) = pos b + n.
Proof.
  intros (Hlen & Hpos & Hmax) Hn. unfold advance; simpl.
  apply to_ssize_t_small. unfold SSIZE_MAX in *; lia.
Qed.

Lemma buf_ok_advance n b :
  buf_ok b -> 0 <= n <= len b - pos b -> buf_ok (advance n b).
Proof.
  intros Hb Hn. pose proof (pos_advance n b Hb Hn) as Hp.
  destruct Hb as (Hlen & Hpos & Hmax).
  unfold buf_ok. rewrite Hp. simpl. lia.
Qed.

(** What a completion of [n] bytes transmits, followed by what is then
    left of the buffer, is what was left before. *)
Lemma unsent_advance n b :
  buf_ok b -> 0 <= n <= len b - pos b ->
  take (Z.to_nat n) (unsent b) ++ unsent (advance n b) = unsent b.
Proof.
  intros Hb Hn. pose proof (pos_advance n b Hb Hn) as Hp.
  destruct Hb as (Hlen & Hpos & Hmax).
  unfold unsent, dpos. rewrite Hp. simpl.
  replace (Z.to_nat (pos b + n)) with (Z.to_nat (pos b) + Z.to_nat n)%nat by lia.
  rewrite <- drop_drop. apply take_drop.
Qed.

Lemma nbytes_advance n b :
  buf_ok b -> 0 <= n <= len b - pos b ->
  nbytes (advance n b) = len b - (pos b + n).
Proof.
  intros Hb Hn. rewrite (nbytes_ok _ (buf_ok_advance n b Hb Hn)).
  rewrite (pos_advance n b Hb Hn). reflexivity.
Qed.

Lemma unsent_done b : buf_ok b -> nbytes b = 0 -> unsent b = [].
Proof.
  intros Hb Hn. pose proof (length_unsent b Hb) as Hl.
  rewrite (nbytes_ok b Hb) in Hn.
  destruct (unsent b); [reflexivity | simpl in Hl; lia].
Qed.

(** ** The client: frame lemmas for [close()] *)

Section ClientClose.
Import MAVConnTCPClient.

(** Case analysis on the socket, the thread and the callback of a client,
    then on the thread comparisons of [stop()] and [close()]. *)
Ltac close_cases c :=
  destruct c as [[|] [?|] [|] ? ? ? ? ? ? ? ?];
  unfold close, stop, is_open; simpl;
  repeat (case_decide; simpl); simplify_eq; try done.

Lemma same_tx_refl c : same_tx c c.
Proof. repeat split. Qed.

Lemma close_same_tx caller c : same_tx c (snd (close caller c)).
Proof. close_cases c. Qed.

Lemma close_sock_open caller c : sock_open (snd (close caller c)) = false.
Proof. close_cases c. Qed.

(** The client's [close()] never raises: it joins only another thread. *)
Lemma close_returns caller c : fst (close caller c) = Returned.
Proof. close_cases c. Qed.

(** On a socket that is not open [close()] changes nothing. *)
Lemma close_not_open caller c :
  is_open c = false -> close caller c = (Returned, c).
Proof. unfold close. intros ->. reflexivity. Qed.

End ClientClose.

(** ** The client: the send path keeps its invariants *)

Section ClientSend.
Import MAVConnTCPClient.
Context `{LinkParams}.

Lemma inv_fresh opened cb : inv (fresh opened cb).
Proof.
  split; simpl.
  - constructor.
  - exact I.
  - intros _. split; [discriminate | intros Hq; by destruct Hq].
  - lia.
Qed.

Lemma inv_same_tx c c' :
  same_tx c c' -> (sock_open c' = true -> sock_open c = true) -> inv c -> inv c'.
Proof.
  intros (Hp & Hf & Hq & Hs & Hi & Hw) Ho [Hbufs Hwr Hbusy Hbound].
  split.
  - by rewrite Hq.
  - unfold one_write in *. by rewrite Hs, Hp, Hf, Hq.
  - unfold busy in *. rewrite Hs, Hp, Hq, Hi. auto.
  - by rewrite Hq.
Qed.

Lemma stream_same_tx c c' : same_tx c c' -> stream c' = stream c.
Proof.
  intros (Hp & Hf & Hq & Hs & Hi & Hw).
  unfold stream, pending. by rewrite Hw, Hq.
Qed.

Lemma tx_q_back_same_tx c c' : same_tx c c' -> tx_q_back c' = tx_q_back c.
Proof.
  intros (Hp & Hf & Hq & Hs & Hi & Hw).
  unfold tx_q_back. by rewrite Hf, Hq.
Qed.

Lemma enqueued_same_tx e c c' : same_tx c c' -> enqueued e c c' = [].
Proof.
  intros Hs. unfold enqueued. rewrite (tx_q_back_same_tx c c' Hs).
  case_decide; [lia | reflexivity].
Qed.


(** *** Enqueueing *)

Lemma emplace_inv b c :
  inv c -> buf_ok b -> ~ (MAX_TXQ_SIZE <= length (tx_q c))%nat ->
  inv (post_do_send (tx_q_emplace_back b c)).
Proof.
  intros [Hbufs Hwr Hbusy Hbound] Hb Hfull.
  destruct c as [so th cb tip f q ops posted w tot tr]; simpl in *.
  split; simpl.
  - apply Forall_app; split; [done | by constructor].
  - unfold one_write in *; simpl in *.
    destruct ops as [|op [|]]; try done.
    destruct Hwr as (? & ? & b0 & rest & -> & ?).
    repeat split; try done. by exists b0, (rest ++ [b]).
  - unfold busy in *; simpl in *. intros Ho.
    destruct (Hbusy Ho) as [H1 H2]. split; [done |].
    intros _. right. lia.
  - rewrite length_app. simpl. lia.
Qed.

Lemma stream_emplace b c :
  stream (post_do_send (tx_q_emplace_back b c)) = stream c ++ unsent b.
Proof.
  unfold stream, pending; simpl.
  rewrite fmap_app, concat_app; simpl.
  by rewrite app_nil_r, app_assoc.
Qed.

Lemma tx_q_back_emplace b c :
  tx_q_back (post_do_send (tx_q_emplace_back b c)) = S (tx_q_back c).
Proof. unfold tx_q_back; simpl. rewrite length_app; simpl. lia. Qed.

Lemma send_bytes_step bytes c :
  inv c -> Z.of_nat (length bytes) <= SSIZE_MAX ->
  inv (snd (send_bytes bytes c)) /\
  stream (snd (send_bytes bytes c)) =
    stream c ++ concat (enqueued (CallSendBytes bytes) c (snd (send_bytes bytes c))).
Proof.
  intros Hinv Hlen. unfold send_bytes.
  destruct (negb (is_open c)); [| case_decide]; simpl.
  - assert (same_tx c (emit (EffLogError "send: channel closed!") c)) as Hs
      by (repeat split).
    rewrite (enqueued_same_tx _ _ _ Hs), (stream_same_tx _ _ Hs); simpl.
    rewrite app_nil_r. split; [| done].
    by apply (inv_same_tx c).
  - rewrite (enqueued_same_tx _ _ _ (same_tx_refl c)); simpl.
    by rewrite app_nil_r.
  - split; [apply emplace_inv; auto using buf_ok_of_bytes |].
    rewrite stream_emplace. unfold enqueued.
    rewrite tx_q_back_emplace. case_decide; [| lia]. simpl.
    by rewrite app_nil_r.
Qed.

Lemma send_message_step message c :
  inv c -> Z.of_nat (length (encode message)) <= SSIZE_MAX ->
  inv (snd (send_message message c)) /\
  stream (snd (send_message message c)) =
    stream c ++ concat (enqueued (CallSendMessage message) c (snd (send_message message c))).
Proof.
  intros Hinv Hlen. unfold send_message.
  destruct (negb (is_open c)); [| case_decide]; simpl.
  - assert (same_tx c (emit (EffLogError "send: channel closed!") c)) as Hs
      by (repeat split).
    rewrite (enqueued_same_tx _ _ _ Hs), (stream_same_tx _ _ Hs); simpl.
    rewrite app_nil_r. split; [| done].
    by apply (inv_same_tx c).
  - rewrite (enqueued_same_tx _ _ _ (same_tx_refl c)); simpl.
    by rewrite app_nil_r.
  - split; [apply emplace_inv; auto using buf_ok_of_bytes |].
    rewrite stream_emplace. unfold enqueued.
    rewrite tx_q_back_emplace. case_decide; [| lia]. simpl.
    by rewrite app_nil_r.
Qed.

(** *** Starting a write *)

(** With the flag down no write is outstanding. *)
Lemma idle_no_write c :
  one_write c -> tx_in_progress c = false -> sock_sends c = [].
Proof.
  unfold one_write. destruct (sock_sends c) as [|op [|]]; try done.
  intros (Ht & _) Hf. congruence.
Qed.

Lemma do_send_fields check c :
  tx_q (do_send check c) = tx_q c /\ tx_q_front (do_send check c) = tx_q_front c /\
  wire (do_send check c) = wire c /\ io_posted (do_send check c) = io_posted c /\
  sock_open (do_send check c) = sock_open c.
Proof.
  destruct c as [so th cb tip f q ops posted w tot tr]. unfold do_send; simpl.
  destruct (check && tip); [done |]. by destruct q.
Qed.

Lemma do_send_inv check c :
  Forall buf_ok (tx_q c) -> one_write c -> (length (tx_q c) <= MAX_TXQ_SIZE)%nat ->
  (check = false -> sock_sends c = [] /\ tx_q c <> []) ->
  (check = true -> sock_open c = true -> tx_in_progress c = true -> sock_sends c <> []) ->
  inv (do_send check c).
Proof.
  intros Hbufs Hwr Hbound Hchain Hposted.
  unfold do_send. destruct (check && tx_in_progress c) eqn:Hc.
  - apply andb_true_iff in Hc as [-> Htip].
    split; try done. intros Ho. split; [auto |].
    intros _. left. auto.
  - assert (sock_sends c = []) as Hnone.
    { destruct check; [| by apply Hchain].
      simpl in Hc. by apply idle_no_write. }
    destruct (tx_q c) as [|front rest] eqn:Hq.
    + split; try done; [by rewrite Hq | | by rewrite Hq].
      intros Ho. rewrite Hq. split; [| done].
      destruct check; [simpl in Hc; congruence |].
      destruct (Hchain eq_refl) as [_ Hne]. done.
    + apply Forall_cons in Hbufs as Hfront. destruct Hfront as [Hfront _].
      destruct c as [so th cb tip f q ops posted w tot tr]; simpl in *.
      subst. split; simpl; try done.
      * unfold one_write; simpl. repeat split; try done.
        exists front, rest. split; [done |]. by apply buffer_dpos.
      * intros Ho. split; intros _; [done | by left].
Qed.

End ClientSend.

(** ** The client: completion of a write *)

Section ClientSent.
Import MAVConnTCPClient.
Context `{LinkParams}.


Lemma assign_front c b b' rest :
  tx_q c = b :: rest ->
  assign (tx_q_front c) b' c = set_tx_q (tx_q_front c) (b' :: rest) c.
Proof.
  intros Hq. unfold assign. by rewrite Nat.sub_diag, Hq.
Qed.

Lemma on_sent_front io n c b rest :
  tx_q c = b :: rest -> buf_ok b -> 0 <= n <= len b - pos b ->
  on_sent io (tx_q_front c) false n c = Some (Returned, sent_state n b rest c).
Proof.
  intros Hq Hb Hn.
  pose proof (nbytes_advance n b Hb Hn) as Hnb.
  destruct c as [so th cb tip f q ops posted w tot tr]; simpl in *. subst q.
  unfold on_sent, sent_state, iostat_tx_add, deref, assign; simpl.
  case_decide; [| lia]. rewrite Nat.sub_diag; simpl.
  rewrite Hnb.
  destruct (decide (len b - (pos b + n) = 0)) as [Hz|Hz];
    destruct (decide (pos b + n = len b)) as [He|He]; try lia.
  - unfold tx_q_pop_front; simpl. by destruct rest.
  - done.
Qed.


Lemma sent_state_fields n b rest c :
  wire (sent_state n b rest c) = wire c /\
  io_posted (sent_state n b rest c) = io_posted c /\
  sock_open (sent_state n b rest c) = sock_open c /\
  tx_q (sent_state n b rest c) =
    (if decide (pos b + n = len b) then rest else advance n b :: rest) /\
  tx_q_front (sent_state n b rest c) =
    (if decide (pos b + n = len b) then S (tx_q_front c) else tx_q_front c).
Proof.
  unfold sent_state. case_decide.
  - destruct rest as [|b' rest']; [done |].
    destruct (do_send_fields false
      (set_tx_q (S (tx_q_front (iostat_tx_add n c))) (b' :: rest') (iostat_tx_add n c)))
      as (-> & -> & -> & -> & ->). done.
  - destruct (do_send_fields false
      (set_tx_q (tx_q_front (iostat_tx_add n c)) (advance n b :: rest) (iostat_tx_add n c)))
      as (-> & -> & -> & -> & ->). done.
Qed.

Lemma sent_state_inv n b rest c :
  tx_q c = b :: rest -> sock_sends c = [] -> Forall buf_ok (tx_q c) ->
  (length (tx_q c) <= MAX_TXQ_SIZE)%nat -> 0 <= n <= len b - pos b ->
  inv (sent_state n b rest c).
Proof.
  intros Hq Hs Hbufs Hbound Hn.
  destruct c as [so th cb tip f q ops posted w tot tr]; simpl in *. subst q ops.
  apply Forall_cons in Hbufs as [Hb Hrest]. simpl in Hbound.
  unfold sent_state; simpl. case_decide.
  - destruct rest as [|b' rest'].
    + split; simpl; try done. lia.
    + apply do_send_inv; simpl; try done. simpl in Hbound. lia.
  - apply do_send_inv; simpl; try done.
    constructor; [by apply buf_ok_advance | done].
Qed.

Lemma sent_state_stream n b rest c w :
  buf_ok b -> 0 <= n <= len b - pos b ->
  wire c = w ++ take (Z.to_nat n) (unsent b) ->
  stream (sent_state n b rest c) = w ++ unsent b ++ concat (unsent <$> rest).
Proof.
  intros Hb Hn Hw. unfold stream, pending.
  destruct (sent_state_fields n b rest c) as (-> & _ & _ & -> & _).
  rewrite Hw, <- app_assoc. f_equal.
  pose proof (unsent_advance n b Hb Hn) as Hsplit.
  case_decide as Hd; simpl.
  - assert (unsent (advance n b) = []) as Hnil.
    { apply unsent_done; [by apply buf_ok_advance |].
      rewrite nbytes_advance by done. lia. }
    rewrite Hnil, app_nil_r in Hsplit. by rewrite Hsplit.
  - by rewrite app_assoc, Hsplit.
Qed.

Lemma sent_state_back n b rest c :
  tx_q c = b :: rest -> tx_q_back (sent_state n b rest c) = tx_q_back c.
Proof.
  intros Hq. unfold tx_q_back.
  destruct (sent_state_fields n b rest c) as (_ & _ & _ & -> & ->).
  rewrite Hq. case_decide; simpl; lia.
Qed.

End ClientSent.

(** ** The client: every event keeps the invariants *)

Section ClientRun.
Import MAVConnTCPClient.
Context `{LinkParams}.

(** In a state of the invariant the outstanding write is the only one,
    and its handler finds its buffer at the front of the queue. *)
Lemma outstanding_write c op ops :
  inv c -> sock_sends c = op :: ops ->
  exists b rest,
    ops = [] /\ tx_q c = b :: rest /\ buf_ok b /\
    buf_ref op = tx_q_front c /\ op_bytes op = unsent b /\
    tx_in_progress c = true.
Proof.
  intros [Hbufs Hwr _ _] Hs. unfold one_write in Hwr. rewrite Hs in Hwr.
  destruct ops; [| done].
  destruct Hwr as (Ht & Hr & b & rest & Hq & Hb).
  exists b, rest. rewrite Hq in Hbufs. apply Forall_cons in Hbufs as [Hok _].
  done.
Qed.

Lemma send_done_front io n c op ops b rest :
  inv c -> sock_sends c = op :: ops -> tx_q c = b :: rest ->
  0 <= n <= Z.of_nat (length (op_bytes op)) ->
  let c1 := set_wire (wire c ++ take (Z.to_nat n) (op_bytes op)) (set_sock_sends ops c) in
  0 <= n <= len b - pos b /\
  on_sent io (buf_ref op) false n c1 = Some (Returned, sent_state n b rest c1) /\
  inv (sent_state n b rest c1) /\
  stream (sent_state n b rest c1) = stream c /\
  tx_q_back (sent_state n b rest c1) = tx_q_back c.
Proof.
  intros Hinv Hs Hq Hn c1.
  destruct (outstanding_write c op ops Hinv Hs)
    as (b0 & rest0 & -> & Hq0 & Hb & Hr & Hbytes & Htip).
  rewrite Hq in Hq0. injection Hq0 as <- <-.
  rewrite Hbytes, (length_unsent b Hb) in Hn.
  destruct Hinv as [Hbufs _ _ Hbound].
  split; [done |]. split; [| split; [| split]].
  - rewrite Hr. by apply (on_sent_front io n c1 b rest).
  - by apply sent_state_inv.
  - rewrite (sent_state_stream n b rest c1 (wire c)); try done.
    + unfold stream, pending. by rewrite Hq.
    + unfold c1; simpl. by rewrite Hbytes.
  - by rewrite (sent_state_back n b rest c1).
Qed.

Lemma enqueued_other e c c' :
  (forall bytes, e <> CallSendBytes bytes) ->
  (forall message, e <> CallSendMessage message) ->
  enqueued e c c' = [].
Proof.
  intros Hb Hm. unfold enqueued. case_decide; [| done].
  destruct e; try done; [by destruct (Hb bytes) | by destruct (Hm message)].
Qed.

Lemma close_step caller c :
  inv c ->
  inv (snd (close caller c)) /\ stream (snd (close caller c)) = stream c.
Proof.
  intros Hinv. pose proof (close_same_tx caller c) as Hs.
  split; [| by apply stream_same_tx].
  apply (inv_same_tx c); [done | | done].
  rewrite close_sock_open. done.
Qed.

Lemma inv_closed c :
  Forall buf_ok (tx_q c) -> one_write c ->
  (length (tx_q c) <= MAX_TXQ_SIZE)%nat -> sock_open c = false -> inv c.
Proof.
  intros Hbufs Hwr Hbound Hc. split; try done.
  intros Ho. congruence.
Qed.

(** The handler of a failed write closes the connection. *)
Lemma send_failed_step io c op ops :
  inv c -> sock_sends c = op :: ops ->
  let c1 := set_wire (wire c ++ take (Z.to_nat 0) (op_bytes op)) (set_sock_sends ops c) in
  exists c', on_sent io (buf_ref op) true 0 c1 = Some (Returned, c') /\
    inv c' /\ stream c' = stream c /\ tx_q_back c' = tx_q_back c.
Proof.
  intros Hinv Hs c1.
  destruct (outstanding_write c op ops Hinv Hs)
    as (b & rest & -> & Hq & Hb & Hr & Hbytes & Htip).
  unfold on_sent. set (c2 := emit _ c1).
  exists (snd (close io c2)).
  pose proof (close_returns io c2) as Hret.
  pose proof (close_same_tx io c2) as (Hp & Hf & Hq' & Hs' & Hi & Hw).
  pose proof (close_sock_open io c2) as Hclosed.
  destruct (close io c2) as [o c3]; simpl in *. subst o.
  destruct Hinv as [Hbufs Hwr Hbusy Hbound].
  split; [done |]. split; [| split].
  - apply inv_closed; try done; [by rewrite Hq' | | by rewrite Hq'].
    unfold one_write. by rewrite Hs'.
  - unfold stream, pending. rewrite Hw, Hq'. simpl. by rewrite app_nil_r.
  - unfold tx_q_back. by rewrite Hf, Hq'.
Qed.

Lemma step_inv e c o c' :
  inv c -> step e c = Step o c' ->
  inv c' /\ stream c' = stream c ++ concat (enqueued e c c').
Proof.
  intros Hinv Hstep.
  destruct e as [io|bytes|message|caller| |io error n|io]; simpl in Hstep.
  - destruct (io_thread c) eqn:Hth; [done |]. injection Hstep as <- <-.
    assert (same_tx c (connect io c)) as Hs by (repeat split).
    rewrite enqueued_other by done. simpl. rewrite app_nil_r.
    split; [| by apply stream_same_tx].
    by apply (inv_same_tx c).
  - case_decide; [| done]. injection Hstep as <- <-.
    by apply send_bytes_step.
  - case_decide; [| done]. injection Hstep as <- <-.
    by apply send_message_step.
  - injection Hstep as <- <-.
    rewrite enqueued_other by done. simpl. rewrite app_nil_r.
    by apply close_step.
  - destruct (io_posted c) as [|k] eqn:Hp; [done |]. injection Hstep as <- <-.
    rewrite enqueued_other by done. simpl. rewrite app_nil_r.
    destruct Hinv as [Hbufs Hwr Hbusy Hbound]. split.
    + apply do_send_inv; simpl; try done.
      intros _ Ho Ht. by apply Hbusy.
    + unfold stream, pending.
      destruct (do_send_fields true (set_io_posted k c)) as (-> & _ & -> & _).
      done.
  - destruct (sock_sends c) as [|op ops] eqn:Hs; [done |].
    case_decide as Hn; [| done]. destruct Hn as [Hn Herr].
    rewrite enqueued_other by done. simpl. rewrite app_nil_r.
    destruct error.
    + rewrite (Herr eq_refl) in Hstep.
      destruct (send_failed_step io c op ops Hinv Hs) as (c2 & Hsent & Hi & Hst & _).
      rewrite Hsent in Hstep. injection Hstep as <- <-. done.
    + destruct (outstanding_write c op ops Hinv Hs)
        as (b & rest & Hops & Hq & Hb & Hr & Hbytes & Htip).
      destruct (send_done_front io n c op ops b rest Hinv Hs Hq Hn)
        as (_ & Hsent & Hi & Hst & _).
      rewrite Hsent in Hstep. injection Hstep as <- <-. done.
  - injection Hstep as <- <-.
    rewrite enqueued_other by done. simpl. rewrite app_nil_r.
    set (c1 := emit _ c).
    assert (same_tx c c1) as Hs by (repeat split).
    destruct (close_step io c1) as [Hi Hst].
    { by apply (inv_same_tx c). }
    split; [done |]. rewrite Hst. by apply stream_same_tx.
Qed.

(** No event runs into a dangling reference. *)
Lemma step_defined e c : inv c -> step e c <> Undefined.
Proof.
  intros Hinv.
  destruct e as [io|bytes|message|caller| |io error n|io]; simpl; try done.
  - by destruct (io_thread c).
  - by case_decide.
  - by case_decide.
  - by destruct (io_posted c).
  - destruct (sock_sends c) as [|op ops] eqn:Hs; [done |].
    case_decide as Hn; [| done]. destruct Hn as [Hn Herr].
    destruct error.
    + rewrite (Herr eq_refl).
      destruct (send_failed_step io c op ops Hinv Hs) as (c2 & Hsent & _).
      by rewrite Hsent.
    + destruct (outstanding_write c op ops Hinv Hs)
        as (b & rest & Hops & Hq & Hb & Hr & Hbytes & Htip).
      destruct (send_done_front io n c op ops b rest Hinv Hs Hq Hn)
        as (_ & Hsent & _).
      by rewrite Hsent.
Qed.

End ClientRun.

(** ** The client: runs and the send loop *)

Section ClientLoop.
Import MAVConnTCPClient.
Context `{LinkParams}.

(** Every run is defined, ends in a state of the invariant, and extends
    the stream by the payloads it enqueued, in their order. *)
Lemma run_inv evs : forall c,
  inv c ->
  exists c' ps, run evs c = Some (c', ps) /\ inv c' /\
    stream c' = stream c ++ concat ps.
Proof.
  induction evs as [|e evs IH]; intros c Hinv; simpl.
  - exists c, []. simpl. by rewrite app_nil_r.
  - destruct (step e c) as [o c1| |] eqn:Hstep.
    + destruct (step_inv e c o c1 Hinv Hstep) as [Hinv1 Hst1].
      destruct (IH c1 Hinv1) as (c' & ps & -> & Hinv' & Hst').
      exists c', (enqueued e c c1 ++ ps). split; [done |]. split; [done |].
      by rewrite Hst', Hst1, concat_app, app_assoc.
    + by apply IH.
    + by destruct (step_defined e c Hinv).
Qed.

Lemma chunk_bounds want size :
  0 <= chunk want size <= Z.of_nat size /\
  ((0 < size)%nat -> 1 <= chunk want size).
Proof. unfold chunk. lia. Qed.

Lemma length_pending_cons b rest c :
  tx_q c = b :: rest ->
  length (pending c) = (length (unsent b) + length (concat (unsent <$> rest)))%nat.
Proof. intros Hq. unfold pending. rewrite Hq. simpl. by rewrite length_app. Qed.

(** A completion that transfers at least one byte of a buffer that has
    some left, or that finds the buffer fully sent, leaves less work. *)
Lemma sent_state_work n b rest c c1 :
  tx_q c = b :: rest -> io_posted c1 = io_posted c -> buf_ok b ->
  0 <= n <= len b - pos b -> (0 < len b - pos b -> 1 <= n) ->
  (work (sent_state n b rest c1) < work c)%nat.
Proof.
  intros Hq Hp Hb Hn Hpos. unfold work.
  rewrite (length_pending_cons b rest c Hq). rewrite Hq. unfold pending.
  destruct (sent_state_fields n b rest c1) as (_ & -> & _ & -> & _).
  rewrite Hp. pose proof (length_unsent b Hb) as Hl.
  case_decide as Hd; csimpl.
  - lia.
  - rewrite length_app.
    pose proof (length_unsent _ (buf_ok_advance n b Hb Hn)) as Hl'.
    rewrite (pos_advance n b Hb Hn) in Hl'. simpl in Hl'. lia.
Qed.

Lemma step_send_done io n c op ops b rest :
  inv c -> sock_sends c = op :: ops -> tx_q c = b :: rest ->
  0 <= n <= Z.of_nat (length (op_bytes op)) ->
  step (SendDone io false n) c =
    Step Returned (sent_state n b rest
      (set_wire (wire c ++ take (Z.to_nat n) (op_bytes op)) (set_sock_sends ops c))).
Proof.
  intros Hinv Hs Hq Hn.
  destruct (send_done_front io n c op ops b rest Hinv Hs Hq Hn) as (_ & Hsent & _).
  unfold step. rewrite Hs. case_decide as Hd; [| by destruct Hd].
  cbv zeta. change (wire (set_sock_sends ops c)) with (wire c).
  by rewrite Hsent.
Qed.

Lemma step_run_do_send c k :
  io_posted c = S k -> step RunDoSend c = Step Returned (do_send true (set_io_posted k c)).
Proof. intros Hp. unfold step. by rewrite Hp. Qed.

Lemma io_run_S io want fuel i c :
  io_run io want (S fuel) i c =
    match sock_sends c with
    | op :: _ =>
        match step (SendDone io false (chunk (want i) (length (op_bytes op)))) c with
        | Step _ c' => io_run io want fuel (S i) c'
        | _ => None
        end
    | [] =>
        match io_posted c with
        | O => Some c
        | S _ =>
            match step RunDoSend c with
            | Step _ c' => io_run io want fuel i c'
            | _ => None
            end
        end
    end.
Proof. reflexivity. Qed.

(** The send loop terminates with the queue empty and everything that
    was queued on the wire, whatever the sizes of the partial writes. *)
Lemma io_run_drains io want : forall fuel i c,
  inv c -> sock_open c = true -> (work c < fuel)%nat ->
  exists c', io_run io want fuel i c = Some c' /\
    tx_q c' = [] /\ sock_sends c' = [] /\ io_posted c' = O /\
    wire c' = stream c /\ inv c'.
Proof.
  induction fuel as [|fuel IH]; intros i c Hinv Ho Hwork; [lia |].
  rewrite io_run_S. destruct (sock_sends c) as [|op ops] eqn:Hs.
  - destruct (io_posted c) as [|k] eqn:Hp.
    + exists c. split; [done |].
      assert (tx_q c = []) as Hq.
      { destruct (tx_q c) eqn:Hq; [done |].
        destruct (inv_busy c Hinv Ho) as [_ Hb]. rewrite Hq, Hs, Hp in Hb.
        destruct Hb as [Hb|Hb]; [done | done | lia]. }
      do 3 (split; [done |]). split; [| done].
      unfold stream, pending. rewrite Hq. simpl. by rewrite app_nil_r.
    + rewrite (step_run_do_send c k Hp).
      set (c1 := do_send true (set_io_posted k c)).
      destruct (step_inv RunDoSend c Returned c1 Hinv) as [Hinv1 Hst1].
      { by apply step_run_do_send. }
      destruct (do_send_fields true (set_io_posted k c)) as (Hq1 & _ & _ & Hp1 & Ho1).
      fold c1 in Hq1, Hp1, Ho1. simpl in Hq1, Hp1, Ho1.
      destruct (IH i c1) as (c' & Hrun & Hrest); [done | congruence | |].
      * unfold work, pending in *. rewrite Hq1, Hp1. rewrite Hp in Hwork. lia.
      * exists c'. split; [done |].
        rewrite enqueued_other in Hst1 by done. simpl in Hst1.
        rewrite app_nil_r in Hst1. by rewrite Hst1 in Hrest.
  - destruct (outstanding_write c op ops Hinv Hs)
      as (b & rest & Hops & Hq & Hb & Hr & Hbytes & Htip).
    destruct (chunk_bounds (want i) (length (op_bytes op))) as [Hn Hn1].
    set (n := chunk (want i) (length (op_bytes op))) in *.
    rewrite (step_send_done io n c op ops b rest Hinv Hs Hq Hn).
    destruct (send_done_front io n c op ops b rest Hinv Hs Hq Hn)
      as (Hn' & _ & Hinv1 & Hst1 & _).
    set (c1 := set_wire _ _) in *.
    destruct (sent_state_fields n b rest c1) as (_ & _ & Ho1 & _ & _).
    destruct (IH (S i) (sent_state n b rest c1)) as (c' & Hrun & Hrest); [done | | |].
    + by rewrite Ho1.
    + pose proof (sent_state_work n b rest c c1 Hq eq_refl Hb Hn') as Hw.
      rewrite Hbytes in Hn1. pose proof (length_unsent b Hb) as Hl.
      lia.
    + exists c'. split; [done |]. by rewrite Hst1 in Hrest.
Qed.

End ClientLoop.

(** ** The client: claims about the outbound queue and the send loop *)

Section ClientClaims.
Import MAVConnTCPClient.
Context `{LinkParams}.

Lemma on_sent_error_tx_q io r n c :
  exists c', on_sent io r true n c = Some (Returned, c') /\ tx_q c' = tx_q c.
Proof.
  unfold on_sent. set (c1 := emit _ c).
  exists (snd (close io c1)).
  pose proof (close_returns io c1) as Hret.
  pose proof (close_same_tx io c1) as (_ & _ & Hq & _).
  destruct (close io c1) as [o c2]; simpl in *. by subst o.
Qed.

Lemma step_queue_change e c o c' :
  inv c -> step e c = Step o c' -> queue_change e c c'.
Proof.
  intros Hinv Hstep.
  destruct e as [io|bytes|message|caller| |io error n|io]; simpl in Hstep.
  - destruct (io_thread c); [done |]. by injection Hstep as <- <-.
  - case_decide; [| done]. injection Hstep as <- <-.
    unfold send_bytes. destruct (negb (is_open c)); [by left |].
    case_decide; [by left | by right].
  - case_decide; [| done]. injection Hstep as <- <-.
    unfold send_message. destruct (negb (is_open c)); [by left |].
    case_decide; [by left | by right].
  - injection Hstep as <- <-.
    by destruct (close_same_tx caller c) as (_ & _ & Hq & _).
  - destruct (io_posted c) as [|k]; [done |]. injection Hstep as <- <-.
    by destruct (do_send_fields true (set_io_posted k c)) as (Hq & _).
  - destruct (sock_sends c) as [|op ops] eqn:Hs; [done |].
    case_decide as Hn; [| done]. destruct Hn as [Hn Herr].
    destruct error.
    + match type of Hstep with
      | context [on_sent io ?r true n ?c0] =>
          destruct (on_sent_error_tx_q io r n c0) as (c2 & Hsent & Hq)
      end.
      rewrite Hsent in Hstep. injection Hstep as <- <-. done.
    + destruct (outstanding_write c op ops Hinv Hs)
        as (b & rest & Hops & Hq & Hb & Hr & Hbytes & Htip).
      destruct (send_done_front io n c op ops b rest Hinv Hs Hq Hn)
        as (Hn' & Hsent & _).
      rewrite Hsent in Hstep. injection Hstep as <- <-.
      exists b, rest. split; [done |]. split; [by apply pos_advance |].
      match goal with |- context [sent_state n b rest ?c0] =>
        destruct (sent_state_fields n b rest c0) as (_ & _ & _ & -> & _) end.
      case_decide; [by left | by right].
  - injection Hstep as <- <-. set (c1 := emit _ c).
    by destruct (close_same_tx io c1) as (_ & _ & Hq & _).
Qed.

(** C1. For every sequence of events of a client (sends by any thread,
    runs of posted [do_send] handlers, completions of partial writes
    with any admissible byte count, close requests and errors), the bytes
    put on the socket followed by the unsent bytes of the queued buffers
    are the concatenation of the enqueued payloads in the order of their
    enqueueing; once the queue is empty the wire holds exactly that
    concatenation; and while the socket is open the send loop reaches
    that point after finitely many completions, whatever the sizes of the
    partial writes. *)
Theorem C1_send_loop_fifo (opened cb : bool) (evs : list event) :
  exists c ps,
    run evs (fresh opened cb) = Some (c, ps) /\
    wire c ++ pending c = concat ps /\
    (tx_q c = [] -> wire c = concat ps) /\
    (sock_open c = true ->
     forall io want i, exists fuel c',
       io_run io want fuel i c = Some c' /\ tx_q c' = [] /\ wire c' = concat ps).
Proof.
  destruct (run_inv evs (fresh opened cb) (inv_fresh opened cb))
    as (c & ps & Hrun & Hinv & Hst).
  exists c, ps. split; [done |].
  assert (wire c ++ pending c = concat ps) as Hfifo by exact Hst.
  split; [done |]. split.
  - intros Hq. unfold pending in Hfifo. rewrite Hq in Hfifo.
    simpl in Hfifo. by rewrite app_nil_r in Hfifo.
  - intros Ho io want i.
    destruct (io_run_drains io want (S (work c)) i c Hinv Ho) as (c' & Hrun' & Hq & _ & _ & Hw & _);
      [lia |].
    exists (S (work c)), c'. split; [done |]. split; [done |].
    by rewrite Hw.
Qed.

(** C7. In every state a client can reach, each queued buffer satisfies
    [0 <= pos <= len]; every event leads to such a state again; a
    successful completion reporting [n] bytes finds its buffer at the
    front of the queue and moves that buffer's cursor by exactly [n]; a
    buffer leaves the queue only at such a completion and only when its
    cursor has reached its length; no event runs into undefined
    behaviour. *)
Theorem C7_cursor_invariant (opened cb : bool) (evs : list event) :
  exists c ps,
    run evs (fresh opened cb) = Some (c, ps) /\
    Forall buf_ok (tx_q c) /\
    forall e,
      match step e c with
      | Step _ c' => Forall buf_ok (tx_q c') /\ queue_change e c c'
      | NotEnabled => True
      | Undefined => False
      end.
Proof.
  destruct (run_inv evs (fresh opened cb) (inv_fresh opened cb))
    as (c & ps & Hrun & Hinv & Hst).
  exists c, ps. split; [done |]. split; [by destruct Hinv |].
  intros e. destruct (step e c) as [o c'| |] eqn:Hstep; [| done |].
  - destruct (step_inv e c o c' Hinv Hstep) as [[Hbufs _ _ _] _].
    split; [done |]. by apply (step_queue_change e c o c').
  - by apply (step_defined e c Hinv).
Qed.


End ClientClaims.


(** A write of three bytes completing with two: the handler's reference
    is to the buffer at the front, and the assertion holds. *)
Example completion_reads_front_buffer :
  exists c,
    MAVConnTCPClient.run (H := small_link)
      [MAVConnTCPClient.CallSendBytes ["a"; "b"; "c"]%byte;
       MAVConnTCPClient.RunDoSend]
      (MAVConnTCPClient.fresh true true) = Some (c, [["a"; "b"; "c"]%byte]) /\
    MAVConnTCPClient.sock_sends c =
      [MAVConnTCPClient.mkSendOp ["a"; "b"; "c"]%byte 0] /\
    MAVConnTCPClient.deref 0 c =
      Some (mkMsgBuffer ["a"; "b"; "c"]%byte 3 0) /\
    exists res,
      MAVConnTCPClient.on_sent_asserting 1 0 false 2
        (MAVConnTCPClient.set_wire ["a"; "b"]%byte
           (MAVConnTCPClient.set_sock_sends [] c)) = MAVConnTCPClient.Handled res /\
      MAVConnTCPClient.tx_q (snd res) = [mkMsgBuffer ["a"; "b"; "c"]%byte 3 2].
Proof.
  eexists. split; [vm_compute; reflexivity |].
  split; [reflexivity |]. split; [reflexivity |].
  eexists. split; [vm_compute; reflexivity |]. reflexivity.
Qed.

(** Two payloads sent back to back, the first going out in two partial
    writes while the second is already queued. *)
Example run_two_payloads :
  exists c,
    MAVConnTCPClient.run (H := small_link)
      [MAVConnTCPClient.CallSendBytes ["a"; "b"; "c"]%byte;
       MAVConnTCPClient.RunDoSend;
       MAVConnTCPClient.CallSendBytes ["d"]%byte;
       MAVConnTCPClient.SendDone 1%nat false 2;
       MAVConnTCPClient.RunDoSend;
       MAVConnTCPClient.SendDone 1%nat false 1;
       MAVConnTCPClient.SendDone 1%nat false 1]
      (MAVConnTCPClient.fresh true false)
    = Some (c, [["a"; "b"; "c"]; ["d"]]%byte) /\
    MAVConnTCPClient.wire c = ["a"; "b"; "c"; "d"]%byte /\
    MAVConnTCPClient.tx_q c = [] /\
    MAVConnTCPClient.tx_in_progress c = false.
Proof. eexists. split; [vm_compute; reflexivity |]. done. Qed.

(** ** The client: rejected sends *)

Section ClientRejects.
Import MAVConnTCPClient.
Context `{LinkParams}.

(** C2, amended. On an open connection whose queue holds at least
    [MAX_TXQ_SIZE] buffers, [send_bytes] and [send_message] raise the
    queue-overflow [std::length_error] and leave the connection as it
    was; on a connection that is not open they return without raising
    and leave the queue, the outstanding write and the posted handlers as
    they were; and in no reachable state does the queue hold more than
    [MAX_TXQ_SIZE] buffers. *)
Theorem C2_queue_bound bytes message (c : t) :
  (MAX_TXQ_SIZE <= length (tx_q c))%nat ->
  (is_open c = true ->
   send_bytes bytes c =
     (Thrown (length_error "MAVConnTCPClient::send_bytes: TX queue overflow"), c) /\
   send_message message c =
     (Thrown (length_error "MAVConnTCPClient::send_message: TX queue overflow"), c)) /\
  (is_open c = false ->
   fst (send_bytes bytes c) = Returned /\ same_tx c (snd (send_bytes bytes c)) /\
   fst (send_message message c) = Returned /\ same_tx c (snd (send_message message c))) /\
  (forall opened cb evs, exists c' ps,
     run evs (fresh opened cb) = Some (c', ps) /\
     (length (tx_q c') <= MAX_TXQ_SIZE)%nat).
Proof.
  intros Hfull. split; [| split].
  - intros Ho. unfold send_bytes, send_message. rewrite Ho. simpl.
    by case_decide.
  - intros Ho. unfold send_bytes, send_message. rewrite Ho. simpl. done.
  - intros opened cb evs.
    destruct (run_inv evs (fresh opened cb) (inv_fresh opened cb))
      as (c' & ps & Hrun & Hinv & _).
    exists c', ps. split; [done |]. by destruct Hinv.
Qed.

(** C3, amended. On a connection that is not open, [send_bytes] and
    [send_message] return at once without raising anything: they log
    "send: channel closed!" and change nothing else, so the payload is
    dropped and the queue is as before. *)
Theorem C3_send_on_closed bytes message (c : t) :
  is_open c = false ->
  send_bytes bytes c = (Returned, emit (EffLogError "send: channel closed!") c) /\
  send_message message c = (Returned, emit (EffLogError "send: channel closed!") c) /\
  tx_q (snd (send_bytes bytes c)) = tx_q c /\
  tx_q (snd (send_message message c)) = tx_q c.
Proof.
  intros Ho. unfold send_bytes, send_message. rewrite Ho. done.
Qed.

End ClientRejects.

(** A connection closed with a full queue: the closed-channel test comes
    first, and the call returns instead of raising the overflow. *)
Lemma C2_counterexample :
  exists c ps,
    MAVConnTCPClient.run (H := small_link)
      [MAVConnTCPClient.CallSendBytes ["a"]%byte;
       MAVConnTCPClient.CallSendBytes ["b"]%byte;
       MAVConnTCPClient.CallClose 7%nat]
      (MAVConnTCPClient.fresh true false) = Some (c, ps) /\
    length (MAVConnTCPClient.tx_q c) = MAX_TXQ_SIZE (LinkParams := small_link) /\
    fst (MAVConnTCPClient.send_bytes (H := small_link) ["c"]%byte c) = Returned /\
    fst (MAVConnTCPClient.send_message (H := small_link) ["c"]%byte c) = Returned.
Proof. eexists _, _. split; [vm_compute; reflexivity |]. done. Qed.

Lemma C2_queue_bound_witness :
  MAVConnTCPClient.send_bytes (H := small_link) ["c"]%byte full_client =
    (Thrown (length_error "MAVConnTCPClient::send_bytes: TX queue overflow"),
     full_client).
Proof.
  destruct (C2_queue_bound (H := small_link) ["c"]%byte ["c"]%byte full_client)
    as [Hopen _].
  - vm_compute. lia.
  - destruct (Hopen eq_refl) as [Hb _]. exact Hb.
Defined.

(** A closed connection: the send returns as if it had succeeded. *)
Lemma C3_counterexample :
  MAVConnTCPClient.is_open closed_client = false /\
  fst (MAVConnTCPClient.send_bytes (H := small_link) ["a"]%byte closed_client)
    = Returned /\
  fst (MAVConnTCPClient.send_message (H := small_link) ["a"]%byte closed_client)
    = Returned.
Proof. done. Qed.

Lemma C3_send_on_closed_witness :
  MAVConnTCPClient.send_bytes (H := small_link) ["a"]%byte closed_client =
    (Returned,
     MAVConnTCPClient.emit (EffLogError "send: channel closed!") closed_client).
Proof.
  destruct (C3_send_on_closed (H := small_link) ["a"]%byte ["a"]%byte
              closed_client eq_refl) as [Hb _].
  exact Hb.
Defined.

(** ** The server: broadcast *)

Section ServerBroadcast.
Import MAVConnTCPServer.
Context `{LinkParams}.

(** A client's send raises exactly when the client is open and its queue
    is full, and then leaves the client as it was. *)
Lemma client_send_bytes_thrown bytes (c : Client.t) e :
  fst (Client.send_bytes bytes c) = Thrown e ->
  Client.is_open c = true /\ (MAX_TXQ_SIZE <= length (Client.tx_q c))%nat /\
  snd (Client.send_bytes bytes c) = c.
Proof.
  unfold Client.send_bytes. destruct (Client.is_open c); simpl; [| done].
  by case_decide.
Qed.

Lemma client_send_message_thrown message (c : Client.t) e :
  fst (Client.send_message message c) = Thrown e ->
  Client.is_open c = true /\ (MAX_TXQ_SIZE <= length (Client.tx_q c))%nat /\
  snd (Client.send_message message c) = c.
Proof.
  unfold Client.send_message. destruct (Client.is_open c); simpl; [| done].
  by case_decide.
Qed.

Lemma send_bytes_loop_all bytes l :
  Forall (bytes_returns bytes) l ->
  send_bytes_loop bytes l = (Returned, attempt_bytes bytes <$> l).
Proof.
  induction 1 as [|p l Hp Hl IH]; [done |]. simpl.
  unfold bytes_returns in Hp.
  destruct (Client.send_bytes bytes (sp_obj p)) as [o c] eqn:Hsend.
  simpl in Hp. subst o. rewrite IH. simpl.
  unfold attempt_bytes. by rewrite Hsend.
Qed.

Lemma send_bytes_loop_throw bytes l1 p l2 e :
  Forall (bytes_returns bytes) l1 ->
  fst (Client.send_bytes bytes (sp_obj p)) = Thrown e ->
  send_bytes_loop bytes (l1 ++ p :: l2) =
    (Thrown e, (attempt_bytes bytes <$> l1) ++ p :: l2).
Proof.
  intros Hl1 Hp. induction Hl1 as [|q l1 Hq Hl1 IH]; simpl.
  - destruct (client_send_bytes_thrown bytes (sp_obj p) e Hp) as (_ & _ & Hsame).
    destruct (Client.send_bytes bytes (sp_obj p)) as [o c] eqn:Hsend.
    simpl in *. subst. by destruct p.
  - unfold bytes_returns in Hq.
    destruct (Client.send_bytes bytes (sp_obj q)) as [o c] eqn:Hsend.
    simpl in Hq. subst o. rewrite IH. simpl.
    unfold attempt_bytes at 2. by rewrite Hsend.
Qed.

Lemma send_message_loop_all message l :
  Forall (message_returns message) l ->
  send_message_loop message l = (Returned, attempt_message message <$> l).
Proof.
  induction 1 as [|p l Hp Hl IH]; [done |]. simpl.
  unfold message_returns in Hp.
  destruct (Client.send_message message (sp_obj p)) as [o c] eqn:Hsend.
  simpl in Hp. subst o. rewrite IH. simpl.
  unfold attempt_message. by rewrite Hsend.
Qed.

Lemma send_message_loop_throw message l1 p l2 e :
  Forall (message_returns message) l1 ->
  fst (Client.send_message message (sp_obj p)) = Thrown e ->
  send_message_loop message (l1 ++ p :: l2) =
    (Thrown e, (attempt_message message <$> l1) ++ p :: l2).
Proof.
  intros Hl1 Hp. induction Hl1 as [|q l1 Hq Hl1 IH]; simpl.
  - destruct (client_send_message_thrown message (sp_obj p) e Hp) as (_ & _ & Hsame).
    destruct (Client.send_message message (sp_obj p)) as [o c] eqn:Hsend.
    simpl in *. subst. by destruct p.
  - unfold message_returns in Hq.
    destruct (Client.send_message message (sp_obj q)) as [o c] eqn:Hsend.
    simpl in Hq. subst o. rewrite IH. simpl.
    unfold attempt_message at 2. by rewrite Hsend.
Qed.

(** C6, amended. A broadcast calls the clients' send in registry order.
    If no client's send raises, every client of the registry gets its
    delivery attempt and the broadcast returns.  If the send of a client
    raises (its queue is full), the exception leaves the loop: the
    clients before it have had their attempt, the broadcast raises the
    same exception, and that client and all clients after it are left as
    they were. *)
Theorem C6_broadcast_stops_at_throw bytes message (s : t) :
  (forall l1 p l2 e,
     client_list s = l1 ++ p :: l2 ->
     Forall (bytes_returns bytes) l1 ->
     fst (Client.send_bytes bytes (sp_obj p)) = Thrown e ->
     send_bytes bytes s =
       (Thrown e, set_client_list ((attempt_bytes bytes <$> l1) ++ p :: l2) s)) /\
  (Forall (bytes_returns bytes) (client_list s) ->
   send_bytes bytes s =
     (Returned, set_client_list (attempt_bytes bytes <$> client_list s) s)) /\
  (forall l1 p l2 e,
     client_list s = l1 ++ p :: l2 ->
     Forall (message_returns message) l1 ->
     fst (Client.send_message message (sp_obj p)) = Thrown e ->
     send_message message s =
       (Thrown e, set_client_list ((attempt_message message <$> l1) ++ p :: l2) s)) /\
  (Forall (message_returns message) (client_list s) ->
   send_message message s =
     (Returned, set_client_list (attempt_message message <$> client_list s) s)) /\
  (forall c e,
     fst (Client.send_bytes bytes c) = Thrown e \/
     fst (Client.send_message message c) = Thrown e ->
     Client.is_open c = true /\ (MAX_TXQ_SIZE <= length (Client.tx_q c))%nat).
Proof.
  unfold send_bytes, send_message.
  split; [| split; [| split; [| split]]].
  - intros l1 p l2 e Hl Hl1 Hp. rewrite Hl.
    by rewrite (send_bytes_loop_throw bytes l1 p l2 e Hl1 Hp).
  - intros Hall. by rewrite (send_bytes_loop_all bytes _ Hall).
  - intros l1 p l2 e Hl Hl1 Hp. rewrite Hl.
    by rewrite (send_message_loop_throw message l1 p l2 e Hl1 Hp).
  - intros Hall. by rewrite (send_message_loop_all message _ Hall).
  - intros c e [Hb|Hm].
    + by destruct (client_send_bytes_thrown bytes c e Hb) as (? & ? & _).
    + by destruct (client_send_message_thrown message c e Hm) as (? & ? & _).
Qed.

End ServerBroadcast.

(** The first client's queue is full: the broadcast raises and the second
    client, which would have taken the payload, never sees it. *)
Lemma C6_counterexample :
  MAVConnTCPServer.send_bytes (H := small_link) ["c"]%byte two_clients =
    (Thrown (length_error "MAVConnTCPClient::send_bytes: TX queue overflow"),
     two_clients) /\
  MAVConnTCPClient.tx_q
    (snd (MAVConnTCPClient.send_bytes (H := small_link) ["c"]%byte
            (MAVConnTCPClient.fresh true true))) =
    [MsgBuffer_of_bytes ["c"]%byte].
Proof. split; vm_compute; reflexivity. Qed.

Lemma C6_broadcast_stops_at_throw_witness :
  MAVConnTCPServer.send_bytes (H := small_link) ["c"]%byte two_clients =
    (Thrown (length_error "MAVConnTCPClient::send_bytes: TX queue overflow"),
     MAVConnTCPServer.set_client_list
       ((attempt_bytes (H := small_link) ["c"]%byte <$> []) ++
        MAVConnTCPServer.mkShared 10 full_client ::
        [MAVConnTCPServer.mkShared 11 (MAVConnTCPClient.fresh true true)])
       two_clients).
Proof.
  destruct (C6_broadcast_stops_at_throw (H := small_link) ["c"]%byte ["c"]%byte
    two_clients) as [Hthrow _].
  apply (Hthrow [] (MAVConnTCPServer.mkShared 10 full_client)
    [MAVConnTCPServer.mkShared 11 (MAVConnTCPClient.fresh true true)]
    (length_error "MAVConnTCPClient::send_bytes: TX queue overflow"));
    [reflexivity | constructor | reflexivity].
Defined.

(** ** The server: statistics *)

Section ServerStatus.
Import MAVConnTCPServer.
Context {uint8_t uint16_t : Type} `{!Num uint8_t, !Num uint16_t}.
Context (inst_get_status : Client.t -> mavlink_status_t (uint8_t := uint8_t) (uint16_t := uint16_t)).

Lemma foldl_status_add l : forall acc,
  foldl (status_add inst_get_status) acc l =
    mkStatus
      (foldl num_add (packet_rx_success_count acc)
         ((fun p => packet_rx_success_count (inst_get_status (sp_obj p))) <$> l))
      (foldl num_add (packet_rx_drop_count acc)
         ((fun p => packet_rx_drop_count (inst_get_status (sp_obj p))) <$> l))
      (foldl num_add (buffer_overrun acc)
         ((fun p => buffer_overrun (inst_get_status (sp_obj p))) <$> l))
      (foldl num_add (parse_error acc)
         ((fun p => parse_error (inst_get_status (sp_obj p))) <$> l)).
Proof.
  induction l as [|p l IH]; intros acc; simpl.
  - by destruct acc.
  - by rewrite IH.
Qed.

End ServerStatus.

Section ServerIOStat.
Import MAVConnTCPServer.
Context {size_t float : Type} `{!Num size_t, !Num float}.
Context (inst_get_iostat : Client.t -> IOStat (size_t := size_t) (float := float)).

Lemma foldl_iostat_add l : forall acc,
  foldl (iostat_add inst_get_iostat) acc l =
    mkIOStat
      (foldl num_add (tx_total_bytes acc)
         ((fun p => tx_total_bytes (inst_get_iostat (sp_obj p))) <$> l))
      (foldl num_add (tx_speed acc)
         ((fun p => tx_speed (inst_get_iostat (sp_obj p))) <$> l))
      (foldl num_add (rx_total_bytes acc)
         ((fun p => rx_total_bytes (inst_get_iostat (sp_obj p))) <$> l))
      (foldl num_add (rx_speed acc)
         ((fun p => rx_speed (inst_get_iostat (sp_obj p))) <$> l)).
Proof.
  induction l as [|p l IH]; intros acc; simpl.
  - by destruct acc.
  - by rewrite IH.
Qed.

End ServerIOStat.

Section ServerStatistics.
Import MAVConnTCPServer.
Context {uint8_t uint16_t size_t float : Type}
  `{!Num uint8_t, !Num uint16_t, !Num size_t, !Num float}.
Context (inst_get_status : Client.t -> mavlink_status_t (uint8_t := uint8_t) (uint16_t := uint16_t)).
Context (inst_get_iostat : Client.t -> IOStat (size_t := size_t) (float := float)).

(** C8. [get_status()] and [get_iostat()] return, field by field, the sum
    from zero of the values that the clients in the registry report, in
    registry order and in the arithmetic of the field; with an empty
    registry every field is zero.  The result is a function of the
    registry at the call: the server keeps no aggregate of its own. *)
Theorem C8_statistics_sum (s : t) :
  get_status inst_get_status s =
    mkStatus
      (num_sum ((fun p => packet_rx_success_count (inst_get_status (sp_obj p))) <$> client_list s))
      (num_sum ((fun p => packet_rx_drop_count (inst_get_status (sp_obj p))) <$> client_list s))
      (num_sum ((fun p => buffer_overrun (inst_get_status (sp_obj p))) <$> client_list s))
      (num_sum ((fun p => parse_error (inst_get_status (sp_obj p))) <$> client_list s)) /\
  get_iostat inst_get_iostat s =
    mkIOStat
      (num_sum ((fun p => tx_total_bytes (inst_get_iostat (sp_obj p))) <$> client_list s))
      (num_sum ((fun p => tx_speed (inst_get_iostat (sp_obj p))) <$> client_list s))
      (num_sum ((fun p => rx_total_bytes (inst_get_iostat (sp_obj p))) <$> client_list s))
      (num_sum ((fun p => rx_speed (inst_get_iostat (sp_obj p))) <$> client_list s)) /\
  get_status inst_get_status (set_client_list [] s) = status_zero /\
  get_iostat inst_get_iostat (set_client_list [] s) = iostat_zero.
Proof.
  unfold get_status, get_iostat, num_sum.
  rewrite foldl_status_add, foldl_iostat_add. done.
Qed.

End ServerStatistics.

(** ** The server: the registry *)

Section ServerRegistry.
Import MAVConnTCPServer.

Lemma filter_other_addr a (l : list shared_ptr) :
  (a ∉ addrs l) -> filter (fun e => sp_addr e <> a) l = l.
Proof.
  induction l as [|p l IH]; [done |]. unfold addrs. simpl.
  intros Hnot. apply not_elem_of_cons in Hnot as [Hne Hnot].
  rewrite filter_cons_True by done. by rewrite IH.
Qed.

Lemma addr_not_in_filter a (l : list shared_ptr) :
  a ∉ addrs (filter (fun e => sp_addr e <> a) l).
Proof.
  unfold addrs. intros Hin. apply list_elem_of_fmap in Hin as (p & Ha & Hp).
  apply list_elem_of_filter in Hp as [Hne _]. by destruct Hne.
Qed.

(** In a registry without repeated addresses the erased entry is one. *)
Lemma filter_one_addr a (l : list shared_ptr) :
  NoDup (addrs l) -> a ∈ addrs l ->
  exists l1 p l2, l = l1 ++ p :: l2 /\ sp_addr p = a /\
    filter (fun e => sp_addr e <> a) l = l1 ++ l2.
Proof.
  induction l as [|q l IH]; unfold addrs; simpl; intros Hnd Hin.
  - by apply elem_of_nil in Hin.
  - apply NoDup_cons in Hnd as [Hq Hnd].
    destruct (decide (sp_addr q = a)) as [Heq|Hne].
    + exists [], q, l. split; [done |]. split; [done |].
      rewrite filter_cons_False by (intros Hn; by destruct Hn).
      simpl. apply filter_other_addr. by rewrite <- Heq.
    + apply elem_of_cons in Hin as [Hin|Hin]; [by destruct Hne |].
      destruct (IH Hnd Hin) as (l1 & p & l2 & -> & Hp & Hf).
      exists (q :: l1), p, l2. split; [done |]. split; [done |].
      rewrite filter_cons_True by done. by rewrite Hf.
Qed.

(** C9. [client_closed] with a weak reference that still resolves erases
    from the registry the entries at that address and keeps the others in
    their order, so that the address is not in the registry afterwards;
    in a registry that holds each client once the erased entry is exactly
    one; a second request for the same client changes the registry no
    further.  With a weak reference that no longer resolves the server is
    left as it was. *)
Theorem C9_deregister (w : weak_ptr) (s : t) :
  (wp_expired w = true -> client_closed w s = s) /\
  (wp_expired w = false ->
   client_list (client_closed w s) =
     filter (fun e => sp_addr e <> wp_addr w) (client_list s) /\
   (wp_addr w ∉ addrs (client_list (client_closed w s))) /\
   client_list (client_closed w (client_closed w s)) =
     client_list (client_closed w s) /\
   (NoDup (addrs (client_list s)) -> wp_addr w ∈ addrs (client_list s) ->
    exists l1 p l2,
      client_list s = l1 ++ p :: l2 /\ sp_addr p = wp_addr w /\
      client_list (client_closed w s) = l1 ++ l2)).
Proof.
  unfold client_closed, lock. split; intros ->; [done |]. simpl.
  split; [done |]. split; [apply addr_not_in_filter |]. split.
  - apply filter_other_addr, addr_not_in_filter.
  - apply filter_one_addr.
Qed.

(** A client enters the registry at a new address: no address repeats. *)
Lemma on_accept_NoDup io addr (s : t) :
  NoDup (addrs (client_list s)) -> addr ∉ addrs (client_list s) ->
  NoDup (addrs (client_list (snd (on_accept io addr false s)))).
Proof.
  intros Hnd Hnew. unfold on_accept, addrs. simpl.
  rewrite fmap_app. simpl. apply NoDup_app. split; [done |].
  split; [| apply NoDup_singleton].
  intros a Ha Hin. apply list_elem_of_singleton in Hin. by subst.
Qed.

End ServerRegistry.

(** The second of two clients closes; its closed-callback still holds a
    resolving reference. *)
Lemma C9_deregister_witness :
  MAVConnTCPServer.client_list
    (MAVConnTCPServer.client_closed (MAVConnTCPServer.mkWeak 11 false) two_clients) =
  filter (fun e => MAVConnTCPServer.sp_addr e <> 11%nat)
    (MAVConnTCPServer.client_list two_clients) /\
  MAVConnTCPServer.client_closed (MAVConnTCPServer.mkWeak 11 true) two_clients =
    two_clients.
Proof.
  split.
  - destruct (C9_deregister (MAVConnTCPServer.mkWeak 11 false) two_clients)
      as [_ Hlive].
    destruct (Hlive eq_refl) as (Hlist & _). exact Hlist.
  - destruct (C9_deregister (MAVConnTCPServer.mkWeak 11 true) two_clients)
      as [Hgone _].
    exact (Hgone eq_refl).
Defined.

(** After the second client is gone the registry holds the first alone. *)
Example deregister_second :
  addrs (MAVConnTCPServer.client_list
    (MAVConnTCPServer.client_closed (MAVConnTCPServer.mkWeak 11 false) two_clients))
  = [10%nat].
Proof. vm_compute. reflexivity. Qed.

(** ** [close()] of the client and of the server *)

Section CloseCalls.

Lemma closed_cb_calls_snoc tr e :
  closed_cb_calls (tr ++ [e]) =
    (closed_cb_calls tr + (if is_closed_cb e then 1 else 0))%nat.
Proof.
  unfold closed_cb_calls. rewrite filter_app, length_app.
  by destruct e.
Qed.

(** The effects of the client's [close()] on an open socket: the socket
    is shut down, cancelled and closed; then, unless the caller is the
    thread of [io_thread], the io service is stopped and the thread, if
    joinable, is joined; then the closed-callback, if installed, runs. *)
Lemma client_close_trace caller (c : MAVConnTCPClient.t) :
  MAVConnTCPClient.is_open c = true ->
  MAVConnTCPClient.trace (snd (MAVConnTCPClient.close caller c)) =
    MAVConnTCPClient.trace c ++ [EffShutdownSend; EffCancel; EffSocketClose] ++
    (if decide (Some caller = MAVConnTCPClient.io_thread c) then []
     else [EffIoWorkReset; EffIoStop] ++
          match MAVConnTCPClient.io_thread c with
          | Some th => [EffJoin th]
          | None => []
          end ++ [EffIoReset]) ++
    (if MAVConnTCPClient.port_closed_cb c then [EffPortClosedCb] else []).
Proof.
  destruct c as [[|] [th|] [|] ? ? ? ? ? ? ? tr];
    unfold MAVConnTCPClient.close, MAVConnTCPClient.stop, MAVConnTCPClient.is_open;
    simpl; intros Ho; try done;
    repeat (case_decide; simpl); simplify_eq; try done;
    by rewrite <- ?app_assoc.
Qed.

(** The effects of the server's [close()] on an open acceptor, up to the
    join: the io service is stopped and the acceptor closed whoever the
    caller is. *)
Lemma server_close_trace caller (s : MAVConnTCPServer.t) :
  MAVConnTCPServer.is_open s = true ->
  MAVConnTCPServer.trace (snd (MAVConnTCPServer.close caller s)) =
    MAVConnTCPServer.trace s ++
    [EffLogInform "Terminating server. All connections will be closed.";
     EffIoStop; EffAcceptorClose] ++
    match MAVConnTCPServer.io_thread s with
    | Some th =>
        if decide (caller = th) then []
        else EffJoin th ::
             (if MAVConnTCPServer.port_closed_cb s then [EffPortClosedCb] else [])
    | None => if MAVConnTCPServer.port_closed_cb s then [EffPortClosedCb] else []
    end.
Proof.
  destruct s as [[|] [th|] [|] l tr];
    unfold MAVConnTCPServer.close, MAVConnTCPServer.is_open;
    simpl; intros Ho; try done;
    repeat (case_decide; simpl); simplify_eq; try done;
    by rewrite <- ?app_assoc.
Qed.

(** The server's [close()] raises exactly when the caller is the thread
    it joins. *)
Lemma server_close_outcome caller (s : MAVConnTCPServer.t) :
  fst (MAVConnTCPServer.close caller s) =
    if MAVConnTCPServer.is_open s then
      if decide (MAVConnTCPServer.io_thread s = Some caller)
      then Thrown system_error_deadlock else Returned
    else Returned.
Proof.
  destruct s as [[|] [th|] [|] l tr];
    unfold MAVConnTCPServer.close, MAVConnTCPServer.is_open; simpl;
    repeat (case_decide; simpl); simplify_eq; done.
Qed.

Lemma server_close_not_open caller (s : MAVConnTCPServer.t) :
  MAVConnTCPServer.is_open (snd (MAVConnTCPServer.close caller s)) = false.
Proof.
  destruct s as [[|] [th|] [|] l tr];
    unfold MAVConnTCPServer.close, MAVConnTCPServer.is_open; simpl;
    repeat (case_decide; simpl); done.
Qed.

Lemma server_close_closed caller (s : MAVConnTCPServer.t) :
  MAVConnTCPServer.is_open s = false ->
  MAVConnTCPServer.close caller s = (Returned, s).
Proof. unfold MAVConnTCPServer.close. by intros ->. Qed.

End CloseCalls.

(** C4. The failing case: the accept handler of a listening server with
    a closed-callback installed reports an error and calls [close()]
    on the reactor thread.  The join of the thread by itself raises, the
    closed-callback is not invoked, and since the acceptor is closed by
    then no later [close()] invokes it either. *)
Theorem C4_server_close_from_reactor_skips_callback :
  MAVConnTCPServer.port_closed_cb (MAVConnTCPServer.listening 1) = true /\
  fst (MAVConnTCPServer.on_accept 1 12 true (MAVConnTCPServer.listening 1)) =
    Thrown system_error_deadlock /\
  closed_cb_calls (MAVConnTCPServer.trace
    (snd (MAVConnTCPServer.on_accept 1 12 true (MAVConnTCPServer.listening 1)))) = O /\
  forall caller,
    MAVConnTCPServer.close caller
      (snd (MAVConnTCPServer.on_accept 1 12 true (MAVConnTCPServer.listening 1))) =
    (Returned, snd (MAVConnTCPServer.on_accept 1 12 true (MAVConnTCPServer.listening 1))).
Proof.
  split; [done |]. split; [done |]. split; [done |].
  intros caller. by apply server_close_closed.
Qed.

(** C5. The failing case: [close()] of the server called on its own
    reactor thread (from the accept handler, on error) stops the io
    service and joins the thread from itself, which raises; the client's
    [close()] called on its own reactor thread neither stops nor joins. *)
Theorem C5_server_close_joins_own_thread :
  MAVConnTCPServer.close 1 (MAVConnTCPServer.listening 1) =
    (Thrown system_error_deadlock,
     MAVConnTCPServer.mkServer false (Some 1%nat) true []
       [EffLogInform "Terminating server. All connections will be closed.";
        EffIoStop; EffAcceptorClose]) /\
  MAVConnTCPClient.close 1
    (MAVConnTCPClient.connect 1 (MAVConnTCPClient.fresh true false)) =
    (Returned,
     MAVConnTCPClient.mkClient false (Some 1%nat) true false 0 [] [] 0 [] 0
       [EffShutdownSend; EffCancel; EffSocketClose; EffPortClosedCb]).
Proof. split; reflexivity. Qed.

(** * Further properties of the client *)

Section ClientCloseProperties.
Import MAVConnTCPClient.

Lemma closed_cb_calls_app tr1 tr2 :
  closed_cb_calls (tr1 ++ tr2) = (closed_cb_calls tr1 + closed_cb_calls tr2)%nat.
Proof. unfold closed_cb_calls. by rewrite filter_app, length_app. Qed.

(** [close()] invokes the closed-callback once if the socket was open and
    a callback is installed, and not at all otherwise. *)
Lemma close_calls caller (c : t) :
  closed_cb_calls (trace (snd (close caller c))) =
    (closed_cb_calls (trace c) +
     (if is_open c && port_closed_cb c then 1 else 0))%nat.
Proof.
  destruct c as [[|] [th|] [|] ? ? ? ? ? ? ? tr];
    unfold close, stop, is_open; simpl;
    repeat (case_decide; simpl); simplify_eq;
    rewrite ?closed_cb_calls_snoc; simpl; lia.
Qed.

(** The client's [close()] on an open connection with a closed-callback
    installed returns normally whoever calls it, closes the socket and
    invokes the callback exactly once; any later [close()], from any
    thread, returns and changes nothing. *)
Theorem client_close_exactly_once caller caller' (c : t) :
  is_open c = true -> port_closed_cb c = true ->
  fst (close caller c) = Returned /\
  is_open (snd (close caller c)) = false /\
  closed_cb_calls (trace (snd (close caller c))) = S (closed_cb_calls (trace c)) /\
  close caller' (snd (close caller c)) = (Returned, snd (close caller c)).
Proof.
  intros Ho Hcb. split; [apply close_returns |].
  split; [apply close_sock_open |]. split.
  - rewrite close_calls, Ho, Hcb. simpl. lia.
  - apply close_not_open, close_sock_open.
Qed.

(** The client's [close()] neither stops the io service nor joins when it
    runs on the thread of [io_thread]: it only shuts the socket down and
    invokes the callback, and the thread stays joinable.  Called by any
    other thread it stops the io service, joins the thread and leaves it
    not joinable, before the callback. *)
Theorem client_close_join_discipline io caller (c : t) :
  is_open c = true -> io_thread c = Some io ->
  (trace (snd (close io c)) =
     trace c ++ [EffShutdownSend; EffCancel; EffSocketClose] ++
     (if port_closed_cb c then [EffPortClosedCb] else []) /\
   io_thread (snd (close io c)) = Some io) /\
  (caller <> io ->
   trace (snd (close caller c)) =
     trace c ++ [EffShutdownSend; EffCancel; EffSocketClose;
                 EffIoWorkReset; EffIoStop; EffJoin io; EffIoReset] ++
     (if port_closed_cb c then [EffPortClosedCb] else []) /\
   io_thread (snd (close caller c)) = None).
Proof.
  intros Ho Hth. split.
  - split.
    + rewrite (client_close_trace io c Ho), Hth.
      case_decide; [done | congruence].
    + destruct c as [[|] [th|] [|] ? ? ? ? ? ? ? tr];
        unfold close, stop, is_open in *; simpl in *; simplify_eq;
        repeat (case_decide; simpl); simplify_eq; done.
  - intros Hne. split.
    + rewrite (client_close_trace caller c Ho), Hth.
      case_decide; [congruence | done].
    + destruct c as [[|] [th|] [|] ? ? ? ? ? ? ? tr];
        unfold close, stop, is_open in *; simpl in *; simplify_eq;
        repeat (case_decide; simpl); simplify_eq; done.
Qed.

End ClientCloseProperties.

Lemma client_close_exactly_once_witness :
  closed_cb_calls (MAVConnTCPClient.trace (snd (MAVConnTCPClient.close 2
    (MAVConnTCPClient.connect 1 (MAVConnTCPClient.fresh true false))))) = 1%nat.
Proof.
  destruct (client_close_exactly_once 2 3
    (MAVConnTCPClient.connect 1 (MAVConnTCPClient.fresh true false))
    eq_refl eq_refl) as (_ & _ & Hcalls & _).
  exact Hcalls.
Defined.

Lemma client_close_join_discipline_witness :
  MAVConnTCPClient.io_thread (snd (MAVConnTCPClient.close 1
    (MAVConnTCPClient.connect 1 (MAVConnTCPClient.fresh true false)))) = Some 1%nat /\
  MAVConnTCPClient.io_thread (snd (MAVConnTCPClient.close 2
    (MAVConnTCPClient.connect 1 (MAVConnTCPClient.fresh true false)))) = None.
Proof.
  destruct (client_close_join_discipline 1 2
    (MAVConnTCPClient.connect 1 (MAVConnTCPClient.fresh true false))
    eq_refl eq_refl) as [[_ Hown] Hother].
  split; [exact Hown |].
  destruct Hother as [_ Hjoined]; [lia | exact Hjoined].
Defined.

Section ClientRunProperties.
Import MAVConnTCPClient.
Context `{LinkParams}.

(** A property kept by every event in states of the invariant holds at
    the end of every run. *)
Lemma run_preserves (P : t -> Prop) :
  (forall e c o c', inv c -> P c -> step e c = Step o c' -> P c') ->
  forall evs c, inv c -> P c ->
  exists c' ps, run evs c = Some (c', ps) /\ inv c' /\ P c'.
Proof.
  intros Hstep. induction evs as [|e evs IH]; intros c Hinv HP; simpl.
  - by exists c, [].
  - destruct (step e c) as [o c1| |] eqn:He.
    + destruct (step_inv e c o c1 Hinv He) as [Hinv1 _].
      destruct (IH c1 Hinv1 (Hstep e c o c1 Hinv HP He)) as (c' & ps & -> & ? & ?).
      by exists c', (enqueued e c c1 ++ ps).
    + by apply IH.
    + by destruct (step_defined e c Hinv).
Qed.

Lemma do_send_trace check c :
  trace (do_send check c) = trace c /\
  port_closed_cb (do_send check c) = port_closed_cb c.
Proof.
  destruct c as [so th cb tip f q ops posted w tot tr]. unfold do_send; simpl.
  destruct (check && tip); [done |]. by destruct q.
Qed.

Lemma sent_state_trace n b rest c : trace (sent_state n b rest c) = trace c.
Proof.
  unfold sent_state. case_decide.
  - destruct rest; [done |].
    by destruct (do_send_trace false
      (set_tx_q (S (tx_q_front (iostat_tx_add n c))) (m :: rest) (iostat_tx_add n c)))
      as [-> _].
  - by destruct (do_send_trace false
      (set_tx_q (tx_q_front (iostat_tx_add n c)) (advance n b :: rest) (iostat_tx_add n c)))
      as [-> _].
Qed.

Lemma closed_once_close caller c :
  closed_once c -> closed_once (snd (close caller c)).
Proof.
  intros [Hopen Hle]. unfold closed_once.
  rewrite close_sock_open, close_calls. split; [done |].
  unfold is_open. destruct (sock_open c); simpl; [| lia].
  rewrite (Hopen eq_refl). destruct (port_closed_cb c); simpl; lia.
Qed.

Lemma closed_once_same (c c' : t) :
  sock_open c' = sock_open c ->
  closed_cb_calls (trace c') = closed_cb_calls (trace c) ->
  closed_once c -> closed_once c'.
Proof. unfold closed_once. intros -> ->. done. Qed.

Lemma closed_once_step e c o c' :
  inv c -> closed_once c -> step e c = Step o c' -> closed_once c'.
Proof.
  intros Hinv HJ Hstep.
  destruct e as [io|bytes|message|caller| |io error n|io]; simpl in Hstep.
  - destruct (io_thread c); [done |]. injection Hstep as <- <-.
    by apply (closed_once_same c).
  - case_decide; [| done]. injection Hstep as <- <-.
    unfold send_bytes. destruct (negb (is_open c)); [| case_decide]; simpl; try done.
    apply (closed_once_same c); [done | | done]. simpl.
    by rewrite closed_cb_calls_snoc, Nat.add_0_r.
  - case_decide; [| done]. injection Hstep as <- <-.
    unfold send_message. destruct (negb (is_open c)); [| case_decide]; simpl; try done.
    apply (closed_once_same c); [done | | done]. simpl.
    by rewrite closed_cb_calls_snoc, Nat.add_0_r.
  - injection Hstep as <- <-. by apply closed_once_close.
  - destruct (io_posted c) as [|k]; [done |]. injection Hstep as <- <-.
    destruct (do_send_fields true (set_io_posted k c)) as (_ & _ & _ & _ & Ho).
    destruct (do_send_trace true (set_io_posted k c)) as [Ht _].
    apply (closed_once_same c); [by rewrite Ho | by rewrite Ht | done].
  - destruct (sock_sends c) as [|op ops] eqn:Hs; [done |].
    case_decide as Hn; [| done]. destruct Hn as [Hn Herr].
    destruct error.
    + unfold on_sent in Hstep. injection Hstep as <- <-.
      apply closed_once_close. apply (closed_once_same c); [done | | done].
      simpl. by rewrite closed_cb_calls_snoc, Nat.add_0_r.
    + destruct (outstanding_write c op ops Hinv Hs)
        as (b & rest & Hops & Hq & Hb & Hr & Hbytes & Htip).
      destruct (send_done_front io n c op ops b rest Hinv Hs Hq Hn)
        as (_ & Hsent & _).
      rewrite Hsent in Hstep. injection Hstep as <- <-.
      match goal with |- context [sent_state n b rest ?c0] =>
        destruct (sent_state_fields n b rest c0) as (_ & _ & Ho & _ & _);
        pose proof (sent_state_trace n b rest c0) as Ht end.
      apply (closed_once_same c); [by rewrite Ho | by rewrite Ht | done].
  - injection Hstep as <- <-. apply closed_once_close.
    apply (closed_once_same c); [done | | done].
    simpl. by rewrite closed_cb_calls_snoc, Nat.add_0_r.
Qed.

(** Whatever a client goes through (sends, close requests from any
    thread, read and write errors, in any order), its closed-callback is
    invoked at most once, and not before the socket is closed. *)
Theorem closed_callback_at_most_once (opened cb : bool) (evs : list event) :
  exists c ps,
    run evs (fresh opened cb) = Some (c, ps) /\
    (closed_cb_calls (trace c) <= 1)%nat /\
    (sock_open c = true -> closed_cb_calls (trace c) = O).
Proof.
  destruct (run_preserves closed_once closed_once_step evs (fresh opened cb))
    as (c & ps & Hrun & _ & [Hopen Hle]).
  - apply inv_fresh.
  - split; [done |]. simpl. unfold closed_cb_calls. simpl. lia.
  - by exists c, ps.
Qed.

(** At any moment at most one [async_send] is outstanding on the socket;
    while one is outstanding the send-in-flight flag is up and the
    buffer it transmits is at the front of the queue. *)
Theorem at_most_one_async_send (opened cb : bool) (evs : list event) :
  exists c ps,
    run evs (fresh opened cb) = Some (c, ps) /\
    (length (sock_sends c) <= 1)%nat /\
    forall op, op ∈ sock_sends c ->
      tx_in_progress c = true /\ buf_ref op = tx_q_front c /\
      exists b rest, tx_q c = b :: rest /\ op_bytes op = unsent b.
Proof.
  destruct (run_inv evs (fresh opened cb) (inv_fresh opened cb))
    as (c & ps & Hrun & Hinv & _).
  exists c, ps. split; [done |].
  destruct (sock_sends c) as [|op ops] eqn:Hs.
  - split; [simpl; lia |]. intros op Hop. by apply elem_of_nil in Hop.
  - destruct (outstanding_write c op ops Hinv Hs)
      as (b & rest & -> & Hq & Hb & Hr & Hbytes & Htip).
    split; [simpl; lia |]. intros op' Hop.
    apply list_elem_of_singleton in Hop as ->.
    split; [done |]. split; [done |]. by exists b, rest.
Qed.

End ClientRunProperties.

Section ClientAfterError.
Import MAVConnTCPClient.
Context `{LinkParams}.

Lemma send_bytes_closed bytes c :
  is_open c = false ->
  send_bytes bytes c = (Returned, emit (EffLogError "send: channel closed!") c).
Proof. unfold send_bytes. by intros ->. Qed.

Lemma send_message_closed message c :
  is_open c = false ->
  send_message message c = (Returned, emit (EffLogError "send: channel closed!") c).
Proof. unfold send_message. by intros ->. Qed.

Lemma send_dead_keep e c c0 :
  send_dead c -> sock_open c0 = false ->
  tx_in_progress c0 = tx_in_progress c -> tx_q_front c0 = tx_q_front c ->
  tx_q c0 = tx_q c -> sock_sends c0 = sock_sends c -> wire c0 = wire c ->
  send_dead c0 /\ wire c0 = wire c /\ tx_q c0 = tx_q c /\ enqueued e c c0 = [].
Proof.
  intros (Ho & Hs & Htip) Hclosed Hp Hf Hq Hss Hw.
  unfold send_dead, enqueued, tx_q_back. rewrite Hss, Hp, Hf, Hq.
  case_decide; [lia | done].
Qed.

(** In that state no event transmits, enqueues or erases anything. *)
Lemma send_dead_step e c o c' :
  send_dead c -> step e c = Step o c' ->
  send_dead c' /\ wire c' = wire c /\ tx_q c' = tx_q c /\ enqueued e c c' = [].
Proof.
  intros Hdead Hstep. pose proof Hdead as (Ho & Hs & Htip).
  destruct e as [io|bytes|message|caller| |io error n|io]; simpl in Hstep.
  - destruct (io_thread c); [done |]. injection Hstep as <- <-.
    by apply send_dead_keep.
  - case_decide; [| done]. rewrite send_bytes_closed in Hstep by done.
    injection Hstep as <- <-. by apply send_dead_keep.
  - case_decide; [| done]. rewrite send_message_closed in Hstep by done.
    injection Hstep as <- <-. by apply send_dead_keep.
  - rewrite close_not_open in Hstep by done. injection Hstep as <- <-.
    by apply send_dead_keep.
  - destruct (io_posted c) as [|k] eqn:Hp; [done |]. injection Hstep as <- <-.
    assert (do_send true (set_io_posted k c) = set_io_posted k c) as ->
      by (unfold do_send; simpl; by rewrite Htip).
    by apply (send_dead_keep RunDoSend c (set_io_posted k c)).
  - by rewrite Hs in Hstep.
  - rewrite close_not_open in Hstep by done. injection Hstep as <- <-.
    by apply send_dead_keep.
Qed.

Lemma send_dead_run evs : forall c,
  send_dead c ->
  exists c', run evs c = Some (c', []) /\
    send_dead c' /\ wire c' = wire c /\ tx_q c' = tx_q c.
Proof.
  induction evs as [|e evs IH]; intros c Hdead; simpl.
  - by exists c.
  - destruct (step e c) as [o c1| |] eqn:He.
    + destruct (send_dead_step e c o c1 Hdead He) as (Hdead1 & Hw & Hq & ->).
      destruct (IH c1 Hdead1) as (c' & -> & Hdead' & Hw' & Hq').
      exists c'. simpl. split; [done |]. split; [done |].
      split; congruence.
    + by apply IH.
    + destruct Hdead as (_ & Hs & _).
      destruct e; simpl in He; try done.
      * by destruct (io_thread c).
      * by case_decide.
      * by case_decide.
      * by destruct (io_posted c).
      * by rewrite Hs in He.
Qed.

(** Once the handler of a write has been run with an error, the
    connection transmits nothing more and accepts nothing more, whatever
    is called or completes afterwards: the wire and the queue stay as
    they were when the write failed (the flag is left up, so that even a
    posted [do_send] does nothing). *)
Theorem nothing_sent_after_write_error
    (opened cb : bool) (evs0 evs : list event) (c c1 : t) ps0 io o :
  run evs0 (fresh opened cb) = Some (c, ps0) ->
  step (SendDone io true 0) c = Step o c1 ->
  exists c2,
    run evs c1 = Some (c2, []) /\
    wire c2 = wire c /\ tx_q c2 = tx_q c /\ sock_open c2 = false.
Proof.
  intros Hrun Hstep.
  destruct (run_inv evs0 (fresh opened cb) (inv_fresh opened cb))
    as (c' & ps' & Hrun' & Hinv & _).
  rewrite Hrun in Hrun'. injection Hrun' as <- <-.
  simpl in Hstep. destruct (sock_sends c) as [|op ops] eqn:Hs; [done |].
  case_decide; [| done].
  destruct (outstanding_write c op ops Hinv Hs)
    as (b & rest & -> & Hq & Hb & Hr & Hbytes & Htip).
  unfold on_sent in Hstep. injection Hstep as <- <-.
  match goal with |- context [close io ?c0] => set (c3 := c0) end.
  pose proof (close_same_tx io c3) as (Hp & Hf & Hq' & Hss & Hi & Hw).
  pose proof (close_sock_open io c3) as Hclosed.
  destruct (send_dead_run evs (snd (close io c3))) as (c2 & Hrun2 & Hdead & Hw2 & Hq2).
  { split; [done |]. split; [by rewrite Hss |]. by rewrite Hp. }
  exists c2. split; [done |]. destruct Hdead as (Ho2 & _).
  rewrite Hw2, Hq2, Hw, Hq'. simpl. by rewrite app_nil_r.
Qed.

(** On an open connection with room for them, the payloads sent in turn
    are all accepted, queued behind what was queued in the order of the
    calls with their cursors at 0, and one [do_send] is posted for each. *)
Lemma send_all_room ps : forall c,
  is_open c = true -> (length (tx_q c) + length ps <= MAX_TXQ_SIZE)%nat ->
  Forall (fun o => o = Returned) (fst (send_all ps c)) /\
  length (fst (send_all ps c)) = length ps /\
  tx_q (snd (send_all ps c)) = tx_q c ++ (MsgBuffer_of_bytes <$> ps) /\
  io_posted (snd (send_all ps c)) = (io_posted c + length ps)%nat /\
  is_open (snd (send_all ps c)) = true /\
  wire (snd (send_all ps c)) = wire c.
Proof.
  induction ps as [|p ps IH]; intros c Ho Hroom; simpl.
  - rewrite app_nil_r, Nat.add_0_r. done.
  - simpl in Hroom.
    assert (send_bytes p c =
      (Returned, post_do_send (tx_q_emplace_back (MsgBuffer_of_bytes p) c))) as Hsend.
    { unfold send_bytes. rewrite Ho. simpl. case_decide; [lia | done]. }
    rewrite Hsend. simpl.
    destruct (IH (post_do_send (tx_q_emplace_back (MsgBuffer_of_bytes p) c)))
      as (Hall & Hlen & Hq & Hp & Hopen & Hw).
    + done.
    + simpl. rewrite length_app. simpl. lia.
    + split; [by constructor |]. split; [by rewrite Hlen |].
      rewrite Hq, Hp, Hw. simpl. rewrite <- app_assoc. simpl.
      split; [done |]. split; [lia | done].
Qed.

(** Filling the queue: on a connected client exactly [MAX_TXQ_SIZE] sends
    in a row are accepted, in order, while the reactor has not run; the
    next send raises the overflow error and leaves the client as it is. *)
Theorem fill_queue_then_overflow (cb : bool) (ps : list (list byte)) bytes :
  length ps = MAX_TXQ_SIZE ->
  Forall (fun o => o = Returned) (fst (send_all ps (fresh true cb))) /\
  tx_q (snd (send_all ps (fresh true cb))) = MsgBuffer_of_bytes <$> ps /\
  send_bytes bytes (snd (send_all ps (fresh true cb))) =
    (Thrown (length_error "MAVConnTCPClient::send_bytes: TX queue overflow"),
     snd (send_all ps (fresh true cb))).
Proof.
  intros Hlen.
  destruct (send_all_room ps (fresh true cb)) as (Hall & _ & Hq & _ & Ho & _);
    [done | simpl; lia |].
  split; [done |]. split; [done |].
  unfold send_bytes. rewrite Ho. simpl. case_decide as Hfull; [done |].
  destruct Hfull. rewrite Hq. simpl. rewrite length_fmap. lia.
Qed.

End ClientAfterError.

Lemma nothing_sent_after_write_error_witness :
  exists c c1 c2,
    MAVConnTCPClient.run (H := small_link)
      [MAVConnTCPClient.CallSendBytes ["a"; "b"; "c"]%byte;
       MAVConnTCPClient.RunDoSend;
       MAVConnTCPClient.SendDone 1 false 1]
      (MAVConnTCPClient.fresh true true) = Some (c, [["a"; "b"; "c"]%byte]) /\
    MAVConnTCPClient.step (H := small_link)
      (MAVConnTCPClient.SendDone 1 true 0) c = MAVConnTCPClient.Step Returned c1 /\
    MAVConnTCPClient.run (H := small_link)
      [MAVConnTCPClient.CallSendBytes ["d"]%byte;
       MAVConnTCPClient.RunDoSend;
       MAVConnTCPClient.CallClose 2]
      c1 = Some (c2, []) /\
    MAVConnTCPClient.wire c2 = ["a"]%byte.
Proof.
  eassert (MAVConnTCPClient.run (H := small_link)
      [MAVConnTCPClient.CallSendBytes ["a"; "b"; "c"]%byte;
       MAVConnTCPClient.RunDoSend;
       MAVConnTCPClient.SendDone 1 false 1]
      (MAVConnTCPClient.fresh true true) = Some (_, _)) as Hrun
    by (vm_compute; reflexivity).
  match type of Hrun with
  | _ = Some (?c, _) =>
      eassert (MAVConnTCPClient.step (H := small_link)
        (MAVConnTCPClient.SendDone 1 true 0) c = MAVConnTCPClient.Step _ _) as Hstep
        by (vm_compute; reflexivity)
  end.
  destruct (nothing_sent_after_write_error (H := small_link) true true _
    [MAVConnTCPClient.CallSendBytes ["d"]%byte;
     MAVConnTCPClient.RunDoSend;
     MAVConnTCPClient.CallClose 2] _ _ _ 1 _ Hrun Hstep)
    as (c2 & Hrun2 & Hw & _).
  eexists _, _, c2. split; [exact Hrun |]. split; [exact Hstep |].
  split; [exact Hrun2 |]. exact Hw.
Defined.

Lemma fill_queue_then_overflow_witness :
  MAVConnTCPClient.send_bytes (H := small_link) ["c"]%byte
    (snd (send_all (H := small_link) [["a"]; ["b"]]%byte
       (MAVConnTCPClient.fresh true true))) =
    (Thrown (length_error "MAVConnTCPClient::send_bytes: TX queue overflow"),
     snd (send_all (H := small_link) [["a"]; ["b"]]%byte
       (MAVConnTCPClient.fresh true true))).
Proof.
  destruct (fill_queue_then_overflow (H := small_link) true
    [["a"]; ["b"]]%byte ["c"]%byte eq_refl) as (_ & _ & Hthrow).
  exact Hthrow.
Defined.

(** * Further properties of the server *)

Section ServerCloseProperties.
Import MAVConnTCPServer.

(** Case analysis on the acceptor, the thread and the callback of a
    server, then on the thread comparison of [close()]. *)
Ltac server_close_cases s :=
  destruct s as [[|] [?|] [|] ? ?];
  unfold close, is_open in *; simpl in *; simplify_eq;
  repeat (case_decide; simpl); simplify_eq; try done.

(** [close()] of the server raises exactly when the acceptor is open and
    the caller is the thread it joins, always with the self-join error;
    and whether it raises or not it leaves the registry as it is: the
    accepted clients are not closed with the server. *)
Theorem server_close_raises_iff_own_thread caller (s : t) :
  (forall e, fst (close caller s) = Thrown e <->
     e = system_error_deadlock /\ is_open s = true /\ io_thread s = Some caller) /\
  client_list (snd (close caller s)) = client_list s.
Proof.
  split.
  - intros e. rewrite server_close_outcome.
    destruct (is_open s); [case_decide |]; split; try done;
      try (intros (? & ? & ?); congruence).
    intros Hthrown. by injection Hthrown as <-.
  - server_close_cases s.
Qed.

End ServerCloseProperties.

Section ServerRegistryProperties.
Import MAVConnTCPServer.
Context `{LinkParams}.

(** Registering and deregistering: a client accepted at an address that
    the registry does not hold is appended behind the present entries,
    and its deregistration gives back the registry as it was. *)
Theorem accept_then_client_closed io addr (s : t) :
  (addr ∉ addrs (client_list s)) ->
  on_accept io addr false s =
    (Returned, set_client_list (client_list s ++ [acceptor_client addr]) s) /\
  client_list (client_closed (mkWeak addr false) (snd (on_accept io addr false s))) =
    client_list s.
Proof.
  intros Hnew. split; [done |].
  unfold client_closed, on_accept, lock. simpl.
  rewrite filter_app, (filter_other_addr addr (client_list s) Hnew).
  rewrite filter_cons_False by (simpl; intros Hne; by destruct Hne).
  by rewrite filter_nil, app_nil_r.
Qed.

Lemma send_bytes_loop_addrs bytes l :
  addrs (snd (send_bytes_loop bytes l)) = addrs l.
Proof.
  unfold addrs. induction l as [|p l IH]; [done |]. simpl.
  destruct (Client.send_bytes bytes (sp_obj p)) as [[|e] c]; simpl; [| done].
  f_equal. exact IH.
Qed.

Lemma send_message_loop_addrs message l :
  addrs (snd (send_message_loop message l)) = addrs l.
Proof.
  unfold addrs. induction l as [|p l IH]; [done |]. simpl.
  destruct (Client.send_message message (sp_obj p)) as [[|e] c]; simpl; [| done].
  f_equal. exact IH.
Qed.

(** A broadcast never changes who is registered: whether it returns or
    raises, the registry holds the same addresses in the same order, and
    nothing else of the server changes. *)
Theorem broadcast_keeps_registry bytes message (s : t) :
  addrs (client_list (snd (send_bytes bytes s))) = addrs (client_list s) /\
  addrs (client_list (snd (send_message message s))) = addrs (client_list s) /\
  acceptor_open (snd (send_bytes bytes s)) = acceptor_open s /\
  acceptor_open (snd (send_message message s)) = acceptor_open s /\
  trace (snd (send_bytes bytes s)) = trace s /\
  trace (snd (send_message message s)) = trace s.
Proof.
  unfold send_bytes, send_message. simpl.
  by rewrite send_bytes_loop_addrs, send_message_loop_addrs.
Qed.

(** What a delivery attempt does to a client's queue. *)
Lemma attempt_bytes_queue bytes p :
  Client.is_open (sp_obj p) = false \/
  (length (Client.tx_q (sp_obj p)) < MAX_TXQ_SIZE)%nat ->
  bytes_returns bytes p /\
  Client.tx_q (sp_obj (attempt_bytes bytes p)) =
    if Client.is_open (sp_obj p)
    then Client.tx_q (sp_obj p) ++ [MsgBuffer_of_bytes bytes]
    else Client.tx_q (sp_obj p).
Proof.
  unfold bytes_returns, attempt_bytes, Client.send_bytes. simpl.
  destruct (Client.is_open (sp_obj p)); simpl; [| done].
  intros [Hc|Hroom]; [done |]. case_decide; [lia | done].
Qed.

(** Fan-out: when no client of the registry is open with a full queue,
    the broadcast returns, every open client has the payload appended at
    the back of its queue, and the clients that are not open keep their
    queue. *)
Theorem broadcast_fan_out bytes (s : t) :
  Forall (fun p => Client.is_open (sp_obj p) = false \/
                   (length (Client.tx_q (sp_obj p)) < MAX_TXQ_SIZE)%nat)
         (client_list s) ->
  fst (send_bytes bytes s) = Returned /\
  (fun p => Client.tx_q (sp_obj p)) <$> client_list (snd (send_bytes bytes s)) =
    (fun p => if Client.is_open (sp_obj p)
              then Client.tx_q (sp_obj p) ++ [MsgBuffer_of_bytes bytes]
              else Client.tx_q (sp_obj p)) <$> client_list s.
Proof.
  intros Hall. unfold send_bytes.
  rewrite (send_bytes_loop_all bytes (client_list s)).
  - simpl. split; [done |]. rewrite <- list_fmap_compose.
    apply Forall_fmap_ext_1. eapply Forall_impl; [exact Hall |].
    intros p Hp. simpl. by destruct (attempt_bytes_queue bytes p Hp).
  - eapply Forall_impl; [exact Hall |].
    intros p Hp. by destruct (attempt_bytes_queue bytes p Hp).
Qed.

End ServerRegistryProperties.

Lemma accept_then_client_closed_witness :
  MAVConnTCPServer.client_list
    (MAVConnTCPServer.client_closed (MAVConnTCPServer.mkWeak 12 false)
       (snd (MAVConnTCPServer.on_accept 1 12 false two_clients))) =
  MAVConnTCPServer.client_list two_clients.
Proof.
  destruct (accept_then_client_closed 1 12 two_clients) as [_ Hback].
  - vm_compute. intros Hin. repeat (apply elem_of_cons in Hin as [Hin|Hin]; [lia |]).
    by apply elem_of_nil in Hin.
  - exact Hback.
Defined.

Lemma broadcast_fan_out_witness :
  fst (MAVConnTCPServer.send_bytes (H := small_link) ["c"]%byte
         (snd (MAVConnTCPServer.on_accept 1 12 false
            (MAVConnTCPServer.listening 1)))) = Returned.
Proof.
  destruct (broadcast_fan_out (H := small_link) ["c"]%byte
    (snd (MAVConnTCPServer.on_accept 1 12 false (MAVConnTCPServer.listening 1))))
    as [Hret _].
  - constructor; [right; vm_compute; lia | constructor].
  - exact Hret.
Defined.

(** * Address resolution and construction *)

Section Resolution.

Lemma resolve_fold port resolved : forall st,
  fst (foldl (resolve_fn port) st resolved) =
    match last resolved with
    | Some q => (true, mkEndpoint (ep_addr q) port)
    | None => fst st
    end.
Proof.
  induction resolved as [|q l IH]; intros st; [done |].
  simpl foldl. rewrite IH. destruct l as [|q' l]; [done |].
  rewrite last_cons_cons. destruct (last (q' :: l)) eqn:Hlast; [done |].
  by apply last_None in Hlast.
Qed.

(** [resolve_address_tcp] succeeds exactly when the resolver reports no
    error and yields at least one endpoint.  The endpoint it leaves is
    the last one of the results, with the requested port; with no
    result the caller's endpoint is left as it was. *)
Theorem resolve_address_tcp_takes_last resolved ec port ep :
  (fst (fst (resolve_address_tcp resolved ec port ep)) = true <->
     ec = false /\ resolved <> []) /\
  (forall l q, resolved = l ++ [q] ->
     snd (fst (resolve_address_tcp resolved ec port ep)) =
       mkEndpoint (ep_addr q) port) /\
  (resolved = [] -> snd (fst (resolve_address_tcp resolved ec port ep)) = ep).
Proof.
  unfold resolve_address_tcp.
  pose proof (resolve_fold port resolved (false, ep, [])) as Hfold.
  destruct (foldl (resolve_fn port) (false, ep, []) resolved) as [[ok ep'] log].
  simpl in Hfold. split; [| split].
  - destruct ec; simpl.
    + split; [done | by intros [? _]].
    + destruct (last resolved) as [q|] eqn:Hlast.
      * injection Hfold as -> ->. split; [| done]. intros _. split; [done |].
        intros ->. done.
      * injection Hfold as -> ->. apply last_None in Hlast as ->.
        split; [done | by intros [_ ?]].
  - intros l q ->. rewrite last_snoc in Hfold. injection Hfold as -> ->.
    by destruct ec.
  - intros ->. simpl in Hfold. injection Hfold as -> ->. by destruct ec.
Qed.

(** Construction of a client fails with [DeviceError] "tcp: resolve"
    exactly when the resolution fails, before the socket is touched, and
    with "tcp" when the resolution succeeds and the connect fails;
    otherwise the client is connected to the last resolved address at the
    requested port, with nothing queued, no thread and no callback.  The
    server's constructor does the same with "tcp-l: resolve" and "tcp-l",
    and leaves a listening acceptor with an empty registry. *)
Theorem constructors_fail_or_build resolved ec port err :
  match MAVConnTCPClient_new resolved ec port err with
  | Failed (DeviceError m _) =>
      m = "tcp: resolve" /\ (ec = true \/ resolved = []) \/
      m = "tcp" /\ ec = false /\ resolved <> [] /\ err <> None
  | Built (ep, c) =>
      ec = false /\ err = None /\ c = MAVConnTCPClient.fresh true false /\
      exists l q, resolved = l ++ [q] /\ ep = mkEndpoint (ep_addr q) port
  end /\
  match MAVConnTCPServer_new resolved ec port err with
  | Failed (DeviceError m _) =>
      m = "tcp-l: resolve" /\ (ec = true \/ resolved = []) \/
      m = "tcp-l" /\ ec = false /\ resolved <> [] /\ err <> None
  | Built (ep, s) =>
      ec = false /\ err = None /\
      s = MAVConnTCPServer.mkServer true None false [] [] /\
      exists l q, resolved = l ++ [q] /\ ep = mkEndpoint (ep_addr q) port
  end.
Proof.
  unfold MAVConnTCPClient_new, MAVConnTCPServer_new.
  destruct (resolve_address_tcp_takes_last resolved ec port endpoint_default)
    as (Hok & Hlast & _).
  destruct (fst (fst (resolve_address_tcp resolved ec port endpoint_default))) eqn:Hr;
    simpl.
  - destruct Hok as [Hok _]. destruct (Hok eq_refl) as [-> Hne].
    destruct (exists_last Hne) as (l & q & ->).
    rewrite (Hlast l q eq_refl).
    destruct err as [e|]; split; try (right; done).
    + split; [done |]. split; [done |]. split; [done |]. by exists l, q.
    + split; [done |]. split; [done |]. split; [done |]. by exists l, q.
  - assert (ec = true \/ resolved = []) as Hwhy.
    { destruct ec; [by left |]. right. destruct resolved; [done |].
      destruct Hok as [_ Hok]. by discriminate Hok. }
    split; by left.
Qed.

End Resolution.

(** Two addresses resolved: the second is taken, with the port given. *)
Example resolve_two_addresses :
  resolve_address_tcp [mkEndpoint 10 0; mkEndpoint 20 0] false 5760 endpoint_default =
    (true, mkEndpoint 20 5760,
     [LogResolved (mkEndpoint 10 5760); LogResolved (mkEndpoint 20 5760)]).
Proof. reflexivity. Qed.

(** * The accept loop *)

Section AcceptLoop.
Import Acceptor.
Context `{LinkParams}.

Lemma accept_inv_constructed : inv constructed_server.
Proof.
  unfold inv. simpl. split; [lia |]. split; [done |]. apply NoDup_nil_2.
Qed.

(** Operations on the server that keep the addresses of the registry. *)
Lemma accept_inv_set_srv (s : Server.t) (a : t) :
  addrs (Server.client_list s) = addrs (Server.client_list (srv a)) ->
  inv a -> inv (set_srv s a).
Proof. unfold inv. simpl. by intros ->. Qed.

Lemma server_close_client_list caller (s : Server.t) :
  Server.client_list (snd (Server.close caller s)) = Server.client_list s.
Proof.
  destruct s as [[|] [?|] [|] ? ?];
    unfold Server.close, Server.is_open; simpl;
    repeat (case_decide; simpl); done.
Qed.

Lemma NoDup_filter_addrs (w : nat) (l : list Server.shared_ptr) (k : list nat) :
  NoDup (addrs l ++ k) ->
  NoDup (addrs (filter (fun e => Server.sp_addr e <> w) l) ++ k).
Proof.
  intros Hnd. apply NoDup_app in Hnd as (Hl & Hdisj & Hk).
  apply NoDup_app. split; [| split; [| done]].
  - unfold addrs in *. induction l as [|p l IH]; [done |].
    simpl in Hl. apply NoDup_cons in Hl as [Hp Hl].
    destruct (decide (Server.sp_addr p <> w)).
    + rewrite filter_cons_True by done. simpl. apply NoDup_cons. split.
      * intros Hin. apply Hp. apply list_elem_of_fmap in Hin as (q & Hq & Hin).
        apply list_elem_of_filter in Hin as [_ Hin].
        apply list_elem_of_fmap. by exists q.
      * apply IH; try done. intros x Hx. apply Hdisj. simpl. by right.
    + rewrite filter_cons_False by done.
      apply IH; try done. intros x Hx. apply Hdisj. simpl. by right.
  - intros x Hx. apply Hdisj. unfold addrs in *.
    apply list_elem_of_fmap in Hx as (q & Hq & Hin).
    apply list_elem_of_filter in Hin as [_ Hin].
    apply list_elem_of_fmap. by exists q.
Qed.

Lemma accept_step_inv e a o a' : inv a -> step e a = Some (o, a') -> inv a'.
Proof.
  intros (Hone & Hstart & Hnd) Hstep.
  destruct e as [io|addr|io next error|w|bytes|caller|caller]; simpl in Hstep.
  - destruct (started a) eqn:Hs; [done |]. injection Hstep as <- <-.
    destruct (Hstart eq_refl) as [Hp Ha].
    unfold inv, connect. simpl. rewrite Hp, Ha. simpl.
    split; [lia |]. split; [done |]. by rewrite Ha in Hnd.
  - destruct (io_posted a) as [|k] eqn:Hp; [done |].
    case_decide as Hin; [done |]. injection Hstep as <- <-.
    assert (accepting a = []) as Ha by (destruct (accepting a); [done | simpl in Hone; lia]).
    assert (started a = true) as Hs.
    { destruct (started a) eqn:Hs; [done |]. destruct (Hstart eq_refl). lia. }
    unfold inv, do_accept. simpl.
    destruct (is_destroying a); simpl; rewrite Ha, ?Hs; simpl.
    + split; [lia |]. split; [done |]. by rewrite Ha in Hnd.
    + split; [lia |]. split; [done |].
      unfold alive in Hin. rewrite Ha, app_nil_r in Hin, Hnd.
      apply NoDup_app. split; [done |]. split; [| apply NoDup_singleton].
      intros x Hx Hx'. apply list_elem_of_singleton in Hx'. by subst.
  - destruct (accepting a) as [|addr rest] eqn:Ha; [done |].
    case_decide as Hin; [done |]. injection Hstep as Hacc.
    apply (f_equal snd) in Hacc. simpl in Hacc. subst a'.
    assert (rest = [] /\ io_posted a = O) as [-> Hp].
    { simpl in Hone. destruct rest; [split; [done | lia] | simpl in Hone; lia]. }
    assert (started a = true) as Hs.
    { destruct (started a) eqn:Hs; [done |]. by destruct (Hstart eq_refl). }
    unfold alive in Hin. rewrite Ha in Hin.
    unfold inv, accepted, do_accept, Server.on_accept. destruct error; simpl.
    + rewrite server_close_client_list. simpl. rewrite Hp, Hs. simpl.
      split; [lia |]. split; [done |].
      rewrite app_nil_r. by apply NoDup_app in Hnd as (? & _).
    + destruct (is_destroying a); simpl; rewrite Hp, Hs; simpl;
        (split; [lia |]); (split; [done |]);
        unfold addrs in *; rewrite fmap_app; simpl.
      * by rewrite app_nil_r.
      * rewrite <- app_assoc. simpl. apply NoDup_app.
        apply NoDup_app in Hnd as (Hl & Hdisj & Haddr). split; [done |].
        split.
        -- intros x Hx Hx'. apply elem_of_cons in Hx' as [->|Hx'].
           ++ apply (Hdisj addr Hx). by left.
           ++ apply list_elem_of_singleton in Hx' as ->.
              apply Hin. apply elem_of_app. by left.
        -- apply NoDup_cons. split; [| apply NoDup_singleton].
           intros Hx. apply list_elem_of_singleton in Hx as ->.
           apply Hin. apply elem_of_app. right. by left.
  - injection Hstep as <- <-. unfold inv. simpl.
    split; [done |]. split; [done |].
    unfold Server.client_closed. destruct (Server.lock w); simpl; [| done].
    by apply NoDup_filter_addrs.
  - injection Hstep as <- <-. apply accept_inv_set_srv; [| done].
    unfold Server.send_bytes. simpl. apply send_bytes_loop_addrs.
  - injection Hstep as <- <-. apply accept_inv_set_srv; [| done].
    by rewrite server_close_client_list.
  - injection Hstep as <- <-. unfold destroy, inv. simpl.
    by rewrite server_close_client_list.
Qed.

Lemma accept_run_inv evs : forall a, inv a -> inv (run evs a).
Proof.
  induction evs as [|e evs IH]; intros a Hinv; simpl; [done |].
  destruct (step e a) as [[o a']|] eqn:He; [| by apply IH].
  apply IH. by apply (accept_step_inv e a o a').
Qed.

(** Whatever a server goes through (accepts, deregistrations,
    broadcasts, close requests), its registry never holds two entries at
    one address: a deregistration always erases exactly the entry of the
    client that closed. *)
Theorem registry_addresses_distinct (evs : list event) :
  NoDup (addrs (Server.client_list (srv (run evs constructed_server)))).
Proof.
  destruct (accept_run_inv evs constructed_server accept_inv_constructed) as (_ & _ & Hnd).
  by apply NoDup_app in Hnd as (? & _).
Qed.

(** The accept loop keeps at most one operation going: at any moment
    there is at most one outstanding [async_accept] or one posted
    [do_accept], never both. *)
Theorem one_accept_at_a_time (evs : list event) :
  (io_posted (run evs constructed_server) +
   length (accepting (run evs constructed_server)) <= 1)%nat.
Proof.
  by destruct (accept_run_inv evs constructed_server accept_inv_constructed) as (? & _).
Qed.

End AcceptLoop.

Section AcceptLoopEnd.
Import Acceptor.
Context `{LinkParams}.

Lemma filter_addrs_subset (w : nat) (l : list Server.shared_ptr) x :
  x ∈ addrs (filter (fun e => Server.sp_addr e <> w) l) -> x ∈ addrs l.
Proof.
  unfold addrs. intros Hx. apply list_elem_of_fmap in Hx as (q & Hq & Hin).
  apply list_elem_of_filter in Hin as [_ Hin].
  apply list_elem_of_fmap. by exists q.
Qed.

(** Once the loop has ended no event starts it again, and the registry
    gains no address. *)
Lemma ended_step e a o a' :
  ended a -> step e a = Some (o, a') ->
  ended a' /\
  forall x, x ∈ addrs (Server.client_list (srv a')) ->
            x ∈ addrs (Server.client_list (srv a)).
Proof.
  intros (Hs & Hp & Ha) Hstep.
  destruct e as [io|addr|io next error|w|bytes|caller|caller]; simpl in Hstep.
  - by rewrite Hs in Hstep.
  - by rewrite Hp in Hstep.
  - by rewrite Ha in Hstep.
  - injection Hstep as <- <-. split; [done |]. simpl.
    unfold Server.client_closed. destruct (Server.lock w); simpl; [| done].
    intros x. apply filter_addrs_subset.
  - injection Hstep as <- <-. split; [done |]. simpl.
    unfold Server.send_bytes. simpl. by rewrite send_bytes_loop_addrs.
  - injection Hstep as <- <-. split; [done |]. simpl.
    by rewrite server_close_client_list.
  - injection Hstep as <- <-. split; [done |]. simpl.
    by rewrite server_close_client_list.
Qed.

Lemma ended_run evs : forall a,
  ended a ->
  ended (run evs a) /\
  forall x, x ∈ addrs (Server.client_list (srv (run evs a))) ->
            x ∈ addrs (Server.client_list (srv a)).
Proof.
  induction evs as [|e evs IH]; intros a Hend; simpl; [done |].
  destruct (step e a) as [[o a']|] eqn:He; [| by apply IH].
  destruct (ended_step e a o a' Hend He) as [Hend' Hsub].
  destruct (IH a' Hend') as [Hend'' Hsub'].
  split; [done |]. intros x Hx. by apply Hsub, Hsub'.
Qed.

(** An accept that completes with an error ends the accept loop for
    good: whatever happens afterwards, no [async_accept] is outstanding
    and no [do_accept] is posted again, and the registry gains no client
    (it can only lose some). *)
Theorem accept_error_ends_loop (evs0 evs : list event) io next o (a1 : t) :
  step (AcceptDone io next true) (run evs0 constructed_server) = Some (o, a1) ->
  io_posted (run evs a1) = O /\ accepting (run evs a1) = [] /\
  forall x, x ∈ addrs (Server.client_list (srv (run evs a1))) ->
            x ∈ addrs (Server.client_list (srv (run evs0 constructed_server))).
Proof.
  intros Hstep.
  pose proof (accept_run_inv evs0 constructed_server accept_inv_constructed)
    as (Hone & Hstart & _).
  set (a := run evs0 constructed_server) in *.
  simpl in Hstep. destruct (accepting a) as [|addr rest] eqn:Ha; [done |].
  case_decide; [done |].
  assert (rest = [] /\ io_posted a = O) as [-> Hp].
  { simpl in Hone. destruct rest; [split; [done | lia] | simpl in Hone; lia]. }
  assert (started a = true) as Hs.
  { destruct (started a) eqn:Hs; [done |]. by destruct (Hstart eq_refl). }
  injection Hstep as <- <-.
  match goal with |- context [run evs ?a0] =>
    destruct (ended_run evs a0) as [(_ & Hp' & Ha') Hsub] end.
  { by split. }
  split; [done |]. split; [done |].
  intros x Hx. apply Hsub in Hx. simpl in Hx.
  by rewrite server_close_client_list in Hx.
Qed.

End AcceptLoopEnd.

Lemma accept_error_ends_loop_witness :
  exists a1,
    Acceptor.step (H := small_link) (Acceptor.AcceptDone 1 11 true)
      (Acceptor.run (H := small_link)
         [Acceptor.CallConnect 1; Acceptor.RunDoAccept 10]
         Acceptor.constructed_server) =
      Some (Thrown system_error_deadlock, a1) /\
    Acceptor.accepting
      (Acceptor.run (H := small_link)
         [Acceptor.RunDoAccept 12; Acceptor.AcceptDone 1 13 false] a1) = [].
Proof.
  eassert (Acceptor.step (H := small_link) (Acceptor.AcceptDone 1 11 true)
      (Acceptor.run (H := small_link)
         [Acceptor.CallConnect 1; Acceptor.RunDoAccept 10]
         Acceptor.constructed_server) = Some (_, _)) as Hstep
    by (vm_compute; reflexivity).
  destruct (accept_error_ends_loop (H := small_link)
    [Acceptor.CallConnect 1; Acceptor.RunDoAccept 10]
    [Acceptor.RunDoAccept 12; Acceptor.AcceptDone 1 13 false]
    1 11 _ _ Hstep) as (_ & Hnone & _).
  eexists. split; [exact Hstep | exact Hnone].
Defined.

(** A server that accepts two clients and loses the first. *)
Example accept_two_lose_one :
  addrs (MAVConnTCPServer.client_list (Acceptor.srv
    (Acceptor.run (H := small_link)
       [Acceptor.CallConnect 1; Acceptor.RunDoAccept 10;
        Acceptor.AcceptDone 1 11 false; Acceptor.AcceptDone 1 12 false;
        Acceptor.ClientClosed (MAVConnTCPServer.mkWeak 10 false)]
       Acceptor.constructed_server))) = [11%nat] /\
  Acceptor.accepting
    (Acceptor.run (H := small_link)
       [Acceptor.CallConnect 1; Acceptor.RunDoAccept 10;
        Acceptor.AcceptDone 1 11 false; Acceptor.AcceptDone 1 12 false;
        Acceptor.ClientClosed (MAVConnTCPServer.mkWeak 10 false)]
       Acceptor.constructed_server) = [12%nat].
Proof. split; vm_compute; reflexivity. Qed.
